(** * rl-agents: Monte-Carlo tree search (rl_agents/agents/tree_search)

    A shallow embedding of [mcts.py] (classes [Node], [MCTS], [MCTSAgent],
    [RobustMCTSAgent]) and of [JointEnv.get_available_actions] of
    [robust.py], with the properties of the specification stated on it.

    Conventions of the embedding.
    - Python numbers: visit counts are unbounded integers ([Z]); values,
      priors, rewards and temperatures are Python floats, embedded as exact
      rationals ([Q], compared with [==]); rounding is outside the model.
    - A [dict] is an association list in insertion order (the iteration order
      of a Python dict), with at most one entry per key.
    - The tree is owned through [children]; the [parent] back-reference of a
      node is the trail of a zipper ([Loc]): the node in focus together with
      the chain of its ancestors, each with the hole where the node below it
      sits. [parent] is [None] exactly when the trail is empty.
    - A Python exception is an [outcome] that carries the state reached when
      it was raised. *)

From Stdlib Require Import Ascii String.
From Stdlib Require Import ZArith QArith Qfield Lia Lqa List Bool.
From stdpp Require Import base option list gmap.
Import ListNotations.

Local Open Scope Z_scope.
Local Open Scope Q_scope.

(** ** Data model *)

Definition action := Z.

Set Warnings "-register-all".

(** [class Node]: [prior], [count], [value] and the [children] dict. *)
Inductive Node : Type :=
  mkNode { prior : Q; count : Z; value : Q; children : list (action * Node) }.

(** [Node.K], the value function first-order filter gain. *)
Definition K : Q := 1.

(** [Node.__init__(parent, prior)] (the parent is the trail of the place where
    the node is put). *)
Definition new_Node (p : Q) : Node :=
  {| prior := p; count := 0; value := 0; children := [] |}.

(** [Node(parent=None)], with the default [prior=1]. *)
Definition root_Node : Node := new_Node 1.

(** Python exceptions raised by the embedded code. *)
Inductive exn : Type := IndexError | ValueError.

(** The result of a call: it returns [a] and leaves the state [s], or raises
    [e] in the state [s] reached so far. *)
Inductive outcome (S A : Type) : Type :=
  | Done (a : A) (s : S)
  | Raised (e : exn) (s : S).
Arguments Done {S A} a s.
Arguments Raised {S A} e s.

(** [d[key]] and [key in d] on a dict. *)
Fixpoint getitem {A} (d : list (action * A)) (key : action) : option A :=
  match d with
  | [] => None
  | (k, x) :: d' => if Z.eqb k key then Some x else getitem d' key
  end.

Definition contains {A} (d : list (action * A)) (key : action) : bool :=
  match getitem d key with Some _ => true | None => false end.

Definition keys {A} (d : list (action * A)) : list action := map fst d.

(** [d[key]] where the key is known to be present ([dflt] is never read
    when [key] ranges over [keys d]). *)
Definition item {A} (dflt : A) (d : list (action * A)) (key : action) : A :=
  match getitem d key with Some x => x | None => dflt end.

(** [max(iterable, key=f)]: the first item is the candidate, and a later
    item replaces it only when its key is strictly greater; so the first of
    the maximal items is returned, and [None] stands for the [ValueError] on
    an empty iterable. *)
Fixpoint max_from {A B} (ltb : B -> B -> bool) (f : A -> B) (best : A) (l : list A) : A :=
  match l with
  | [] => best
  | x :: l' => max_from ltb f (if ltb (f best) (f x) then x else best) l'
  end.

Definition py_max {A B} (ltb : B -> B -> bool) (f : A -> B) (l : list A) : option A :=
  match l with
  | [] => None
  | x :: l' => Some (max_from ltb f x l')
  end.

(** [x < y] on floats. *)
Definition Qltb (x y : Q) : bool := negb (Qle_bool y x).

(** ** Node.update *)

(** [self.count += 1; self.value += self.K / self.count * (total_reward - self.value)].
    The division is by the incremented count, which is positive for every
    count a tree can hold (counts start at 0 and only grow or are reset). *)
Definition update (self : Node) (total_reward : Q) : Node :=
  let count' := (count self + 1)%Z in
  {| prior := prior self;
     count := count';
     value := value self + K / inject_Z count' * (total_reward - value self);
     children := children self |}.

(** [N] successive calls of [update], one per reward. *)
Definition updates (self : Node) (rewards : list Q) : Node :=
  fold_left update rewards self.

Definition Qsum (l : list Q) : Q := fold_right Qplus 0 l.

(** The arithmetic mean of the rewards ([x / 0] is [0] in [Q]). *)
Definition mean (l : list Q) : Q := Qsum l / inject_Z (Z.of_nat (length l)).

(** ** Node.select_action and Node.selection_strategy *)

(** [Node.selection_strategy]; [parent] is the node's own [self.parent]. *)
Definition selection_strategy (parent : option Node) (self : Node) (temperature : Q) : Q :=
  match parent with
  | None => value self
  | Some _ => value self + temperature * prior self / inject_Z (count self + 1)
  end.

(** [Node.select_action], for a numeric temperature. The children of [self]
    were created by [self.expand] as [Node(self, p)], and only the root of a
    tree ever has its parent cleared: the [parent] of each child is [self]. *)
Definition select_action (self : Node) (temperature : Q) : option action :=
  match children self with
  | [] => None
  | _ :: _ =>
    if Qeq_bool temperature 0
    then py_max Z.ltb (fun key => count (item root_Node (children self) key))
                (keys (children self))
    else py_max Qltb
                (fun key => selection_strategy (Some self)
                              (item root_Node (children self) key) temperature)
                (keys (children self))
  end.

(** ** Node.expand *)

(** [self.children[a] = child] for a key that is not in the dict. *)
Definition add_child (self : Node) (a : action) (child : Node) : Node :=
  {| prior := prior self; count := count self; value := value self;
     children := children self ++ [(a, child)] |}.

(** The body of the loop of [expand] at index [i]. [probabilities[i]] is only
    read when a child is created, and raises [IndexError] past the end. *)
Definition expand_at (actions : list action) (probabilities : list Q)
    (self : Node) (i : nat) : outcome Node unit :=
  match actions !! i with
  | None => Raised IndexError self
  | Some a =>
    if contains (children self) a then Done tt self
    else match probabilities !! i with
         | None => Raised IndexError self
         | Some p => Done tt (add_child self a (new_Node p))
         end
  end.

(** [for i in l: body], stopping at the first exception. *)
Fixpoint for_each {S I} (body : S -> I -> outcome S unit) (l : list I) (s : S)
    : outcome S unit :=
  match l with
  | [] => Done tt s
  | i :: l' =>
    match body s i with
    | Done _ s' => for_each body l' s'
    | Raised e s' => Raised e s'
    end
  end.

(** [Node.expand(actions_distribution)]. *)
Definition expand (self : Node) (actions_distribution : list action * list Q)
    : outcome Node unit :=
  let '(actions, probabilities) := actions_distribution in
  for_each (expand_at actions probabilities) (seq 0 (length actions)) self.

(** ** Node.convert_visits_to_prior_in_branch *)

Definition Zsum (l : list Z) : Z := fold_right Z.add 0%Z l.

Definition set_prior (p : Q) (self : Node) : Node :=
  {| prior := p; count := count self; value := value self; children := children self |}.

(** [Node.convert_visits_to_prior_in_branch(regularization)]. The new prior of
    a child is computed from the count the child has before its own
    conversion resets it; the recursive call is made without argument, that
    is with the default [regularization=0.5]. (The conversion of a child
    does not read or write the child's prior, so the prior is set here on the
    converted child.) *)
Fixpoint convert_visits_to_prior_in_branch (self : Node) (regularization : Q) : Node :=
  let total_count := Zsum (map (fun kc => (count (snd kc) + 1)%Z) (children self)) in
  let len := length (children self) in
  {| prior := prior self;
     count := 0;
     value := value self;
     children :=
       map (fun kc =>
              (fst kc,
               set_prior (regularization * inject_Z (count (snd kc) + 1) / inject_Z total_count
                          + regularization / inject_Z (Z.of_nat len))
                         (convert_visits_to_prior_in_branch (snd kc) (1 # 2))))
           (children self) |}.

(** ** The parent link: locations in a tree *)

(** A parent seen from one of its children: the parent's own fields and its
    other children, before and after the child in the dict. *)
Record Crumb : Type := mkCrumb {
  up_prior : Q; up_count : Z; up_value : Q;
  before : list (action * Node); at_key : action; after : list (action * Node) }.

(** A node of a tree: the node itself and the chain of its ancestors, nearest
    first; the root has an empty trail. *)
Record Loc : Type := mkLoc { focus : Node; trail : list Crumb }.

(** The parent node, once the (current) child is put back in its place. *)
Definition plug (c : Crumb) (child : Node) : Node :=
  {| prior := up_prior c; count := up_count c; value := up_value c;
     children := before c ++ (at_key c, child) :: after c |}.

(** [self.parent]. *)
Definition parent (self : Loc) : option Loc :=
  match trail self with
  | [] => None
  | c :: up => Some {| focus := plug c (focus self); trail := up |}
  end.

(** The dict split at the entry of [key]. *)
Fixpoint split_at (d : list (action * Node)) (key : action)
    : option (list (action * Node) * Node * list (action * Node)) :=
  match d with
  | [] => None
  | (k, x) :: d' =>
    if Z.eqb k key then Some ([], x, d')
    else match split_at d' key with
         | Some (l, y, r) => Some ((k, x) :: l, y, r)
         | None => None
         end
  end.

(** [self.children[key]], as a location. *)
Definition down (self : Loc) (key : action) : option Loc :=
  match split_at (children (focus self)) key with
  | Some (l, child, r) =>
    Some {| focus := child;
            trail := {| up_prior := prior (focus self); up_count := count (focus self);
                        up_value := value (focus self);
                        before := l; at_key := key; after := r |} :: trail self |}
  | None => None
  end.

(** The root of the tree a location lives in. *)
Fixpoint root_from (self : Node) (up : list Crumb) : Node :=
  match up with
  | [] => self
  | c :: up' => root_from (plug c self) up'
  end.

Definition root_of (self : Loc) : Node := root_from (focus self) (trail self).

(** The position of a location: the indices, from the root down, of the
    entries followed in each children dict. *)
Definition position (self : Loc) : list nat :=
  rev (map (fun c => length (before c)) (trail self)).

(** The node found at a position below [self]. *)
Fixpoint node_at (self : Node) (pos : list nat) : option Node :=
  match pos with
  | [] => Some self
  | i :: pos' =>
    match children self !! i with
    | Some (_, child) => node_at child pos'
    | None => None
    end
  end.

(** What a node holds itself: prior, count, value and the keys of its dict. *)
Definition local (self : Node) : Q * Z * Q * list action :=
  (prior self, count self, value self, keys (children self)).

(** ** Node.update_branch *)

(** [Node.update_branch(total_reward)] on the node [self] with ancestors
    [up]: [self.update], then the same on [self.parent] when there is one. The
    tree is returned from its root. *)
Fixpoint update_branch_from (self : Node) (up : list Crumb) (total_reward : Q) : Node :=
  let self' := update self total_reward in
  match up with
  | [] => self'
  | c :: up' => update_branch_from (plug c self') up' total_reward
  end.

Definition update_branch (self : Loc) (total_reward : Q) : Node :=
  update_branch_from (focus self) (trail self) total_reward.

(** [p] is a prefix of [q], as a test. *)
Fixpoint is_prefix (p q : list nat) : bool :=
  match p, q with
  | [], _ => true
  | i :: p', j :: q' => Nat.eqb i j && is_prefix p' q'
  | _ :: _, [] => false
  end.

(** Floats that may be [np.inf]. *)
Inductive xfloat : Type := Fin (q : Q) | Inf.

(** [x < y] with [np.inf] above every float. *)
Definition xltb (x y : xfloat) : bool :=
  match x, y with
  | Fin p, Fin q => Qltb p q
  | Fin _, Inf => true
  | Inf, _ => false
  end.

(** [min(a, b)] of two arguments: [b] only when it is strictly smaller. *)
Definition py_min (a b : xfloat) : xfloat := if xltb b a then b else a.

(** ** MCTS *)

(** An actions distribution: the list of actions and the list of their
    probabilities, as a policy returns them. *)
Definition distribution : Type := list action * list Q.

Section Engine.

(** The environment collaborator, seen through what the search uses of it. *)
Variable Env : Type.
(** [state.step(action)]: the state after the step, the reward and the
    terminal flag (observation and info are dropped by the callers). *)
Variable env_step : Env -> action -> Env * Q * bool.
(** The snapshot taken by [plan] for each iteration
    ([state.unwrapped.simplified()] when supported, deep-copied). *)
Variable snapshot : Env -> Env.
(** The random stream and [np_random.choice(actions, 1, p=probabilities)[0]];
    [None] is the [ValueError] of numpy. *)
Variable Rng : Type.
Variable np_choice : Rng -> list action -> list Q -> option (action * Rng).
(** The keys of [state.ACTIONS], in the order of the dict. *)
Variable ACTIONS_keys : Env -> list action.

(** [class MCTS]. *)
Record MCTS : Type := mkMCTS {
  root : Node;
  prior_policy : Env -> distribution;
  rollout_policy : Env -> distribution;
  iterations : nat;
  temperature : Q;
  max_depth : nat;
  np_random : Rng }.

Definition set_root (self : MCTS) (r : Node) : MCTS :=
  {| root := r; prior_policy := prior_policy self;
     rollout_policy := rollout_policy self; iterations := iterations self;
     temperature := temperature self; max_depth := max_depth self;
     np_random := np_random self |}.

Definition set_np_random (self : MCTS) (g : Rng) : MCTS :=
  {| root := root self; prior_policy := prior_policy self;
     rollout_policy := rollout_policy self; iterations := iterations self;
     temperature := temperature self; max_depth := max_depth self;
     np_random := g |}.

(** [MCTS.__init__]. *)
Definition new_MCTS (prior_policy rollout_policy : Env -> distribution)
    (iterations : nat) (temperature : Q) (max_depth : nat) (seed : Rng) : MCTS :=
  {| root := root_Node; prior_policy := prior_policy;
     rollout_policy := rollout_policy; iterations := iterations;
     temperature := temperature; max_depth := max_depth; np_random := seed |}.

(** The selection loop of [MCTS.run]:
    [while depth > 0 and node.children and not terminal]. It returns the
    variables of [run] as the loop leaves them. *)
Fixpoint select_loop (tau : Q) (node : Loc) (state : Env) (total_reward : Q)
    (depth : nat) (terminal : bool) : Loc * Env * Q * nat * bool :=
  match depth, children (focus node), terminal with
  | S depth', _ :: _, false =>
    match select_action (focus node) tau with
    | Some action =>
      let '(state', reward, terminal') := env_step state action in
      match down node action with
      | Some child =>
        select_loop tau child state' (total_reward + reward) depth' terminal'
      | None => (node, state', total_reward + reward, depth, terminal')
      end
    | None => (node, state, total_reward, depth, terminal)
    end
  | _, _, _ => (node, state, total_reward, depth, terminal)
  end.

(** [MCTS.evaluate(state, total_reward, limit)]. *)
Fixpoint evaluate (rollout : Env -> distribution) (g : Rng) (state : Env)
    (total_reward : Q) (limit : nat) : outcome Rng Q :=
  match limit with
  | O => Done total_reward g
  | S limit' =>
    let '(actions, probabilities) := rollout state in
    match np_choice g actions probabilities with
    | None => Raised ValueError g
    | Some (action, g') =>
      let '(state', reward, terminal) := env_step state action in
      if terminal then Done (total_reward + reward) g'
      else evaluate rollout g' state' (total_reward + reward) limit'
    end
  end.

(** [MCTS.run(state)]: selection, expansion, evaluation, backpropagation. *)
Definition run (self : MCTS) (state : Env) : outcome MCTS unit :=
  let '(node, state, total_reward, depth, terminal) :=
    select_loop (temperature self) {| focus := root self; trail := [] |}
                state 0 (max_depth self) false in
  let is_root := match trail node with [] => true | _ :: _ => false end in
  let is_leaf := match children (focus node) with [] => true | _ :: _ => false end in
  let expanded :=
    if is_leaf && (negb terminal || is_root)
    then expand (focus node) (prior_policy self state)
    else Done tt (focus node) in
  match expanded with
  | Raised e n => Raised e (set_root self (root_from n (trail node)))
  | Done _ n =>
    let node := {| focus := n; trail := trail node |} in
    if terminal
    then Done tt (set_root self (update_branch node total_reward))
    else
      match evaluate (rollout_policy self) (np_random self) state total_reward depth with
      | Raised e g => Raised e (set_np_random (set_root self (root_of node)) g)
      | Done total_reward g =>
        Done tt (set_np_random (set_root self (update_branch node total_reward)) g)
      end
  end.

(** [MCTS.get_plan()], from the node [node]: while the node has children,
    the temperature-0 action is appended and followed. *)
Fixpoint get_plan_from (node : Node) : list action :=
  match select_action node 0 with
  | None => []
  | Some action =>
    action ::
    item [] (map (fun kc => (fst kc, get_plan_from (snd kc))) (children node)) action
  end.

Definition get_plan (self : MCTS) : list action := get_plan_from (root self).

(** The loop of [MCTS.plan]: one [run] on a fresh snapshot per iteration. *)
Fixpoint plan_loop (self : MCTS) (state : Env) (n : nat) : outcome MCTS unit :=
  match n with
  | O => Done tt self
  | S n' =>
    match run self (snapshot state) with
    | Done _ self' => plan_loop self' state n'
    | Raised e self' => Raised e self'
    end
  end.

(** [MCTS.plan(state)]. *)
Definition plan (self : MCTS) (state : Env) : outcome MCTS (list action) :=
  match plan_loop self state (iterations self) with
  | Done _ self' => Done (get_plan self') self'
  | Raised e self' => Raised e self'
  end.

(** [MCTS.step_by_reset()]. *)
Definition step_by_reset (self : MCTS) : MCTS := set_root self root_Node.

(** [MCTS.step_by_subtree(action)]; the previous action of an agent that has
    not acted yet is [None], which is in no dict. *)
Definition step_by_subtree (self : MCTS) (action : option action) : MCTS :=
  match action with
  | Some a =>
    match getitem (children (root self)) a with
    | Some child => set_root self child
    | None => step_by_reset self
    end
  | None => step_by_reset self
  end.

(** [MCTS.step(action)]. *)
Definition step (self : MCTS) (action : option action) : MCTS :=
  step_by_subtree self action.

(** [MCTS.step_by_prior(action)]. *)
Definition step_by_prior (self : MCTS) (action : option action) : MCTS :=
  let self' := step_by_subtree self action in
  set_root self' (convert_visits_to_prior_in_branch (root self') (1 # 2)).

(** ** MCTSAgent *)

(** [class MCTSAgent]; [assume_vehicle_type] is the model substitution
    [change_agent_model(., type)] when a type is given. *)
Record MCTSAgent : Type := mkMCTSAgent {
  env : Env;
  mcts : MCTS;
  assume_vehicle_type : option (Env -> Env);
  previous_action : option action }.

Definition set_mcts (self : MCTSAgent) (m : MCTS) : MCTSAgent :=
  {| env := env self; mcts := m;
     assume_vehicle_type := assume_vehicle_type self;
     previous_action := previous_action self |}.

Definition set_previous_action (a : action) (self : MCTSAgent) : MCTSAgent :=
  {| env := env self; mcts := mcts self;
     assume_vehicle_type := assume_vehicle_type self;
     previous_action := Some a |}.

(** [MCTSAgent.plan(state)]. The substituted model is bound to the local
    [state], and the search is run on [self.env]. *)
Definition MCTSAgent_plan (self : MCTSAgent) (state : Env)
    : outcome MCTSAgent (list action) :=
  let self := set_mcts self (step (mcts self) (previous_action self)) in
  let state := match assume_vehicle_type self with
               | Some model => model state
               | None => state
               end in
  match plan (mcts self) (env self) with
  | Raised e m => Raised e (set_mcts self m)
  | Done actions m =>
    let self := set_mcts self m in
    match actions with
    | [] => Raised IndexError self
    | a :: _ => Done actions (set_previous_action a self)
    end
  end.

(** [MCTSAgent.act(state)]: [self.plan(state)[0]]. *)
Definition MCTSAgent_act (self : MCTSAgent) (state : Env) : outcome MCTSAgent action :=
  match MCTSAgent_plan self state with
  | Raised e self' => Raised e self'
  | Done actions self' =>
    match actions with
    | [] => Raised IndexError self'
    | a :: _ => Done a self'
    end
  end.

(** [MCTSAgent.reset()]. *)
Definition MCTSAgent_reset (self : MCTSAgent) : MCTSAgent :=
  set_mcts self (step_by_reset (mcts self)).

(** ** RobustMCTSAgent *)

(** [class RobustMCTSAgent]: one [MCTSAgent] per model; [plan] takes the
    agents as it finds them, however they were built. *)
Record RobustMCTSAgent : Type := mkRobust { agents : list MCTSAgent }.

(** [for agent in self.agents: agent.plan(state)]. *)
Fixpoint plan_each (l : list MCTSAgent) (state : Env)
    : outcome (list MCTSAgent) unit :=
  match l with
  | [] => Done tt []
  | agent :: rest =>
    match MCTSAgent_plan agent state with
    | Raised e agent' => Raised e (agent' :: rest)
    | Done _ agent' =>
      match plan_each rest state with
      | Raised e rest' => Raised e (agent' :: rest')
      | Done _ rest' => Done tt (agent' :: rest')
      end
    end
  end.

(** One round of the second loop of [RobustMCTSAgent.plan]:
    [{k: min(v, agent.mcts.root.children[k].value)
      for k, v in min_action_values.items() if k in agent.mcts.root.children}]. *)
Definition restrict_min (min_action_values : list (action * xfloat))
    (agent : MCTSAgent) : list (action * xfloat) :=
  omap (fun kv =>
          match getitem (children (root (mcts agent))) (fst kv) with
          | Some child => Some (fst kv, py_min (snd kv) (Fin (value child)))
          | None => None
          end)
       min_action_values.

(** [min_action_values] after the loop over the agents. *)
Definition min_values (l : list MCTSAgent) (state : Env) : list (action * xfloat) :=
  fold_left restrict_min l (map (fun k => (k, Inf)) (ACTIONS_keys state)).

(** [RobustMCTSAgent.plan(state)]. *)
Definition RobustMCTSAgent_plan (self : RobustMCTSAgent) (state : Env)
    : outcome RobustMCTSAgent (list action) :=
  match plan_each (agents self) state with
  | Raised e l => Raised e {| agents := l |}
  | Done _ l =>
    let min_action_values := min_values l state in
    match py_max xltb (fun key => item Inf min_action_values key)
                 (keys min_action_values) with
    | None => Raised ValueError {| agents := l |}
    | Some action =>
      Done [action] {| agents := map (set_previous_action action) l |}
    end
  end.

End Engine.

Arguments root {Env Rng} _.
Arguments prior_policy {Env Rng} _ _.
Arguments rollout_policy {Env Rng} _ _.
Arguments iterations {Env Rng} _.
Arguments temperature {Env Rng} _.
Arguments max_depth {Env Rng} _.
Arguments np_random {Env Rng} _.
Arguments set_root {Env Rng} self r.
Arguments set_np_random {Env Rng} self g.
Arguments new_MCTS {Env Rng} prior_policy rollout_policy iterations temperature max_depth seed.
Arguments select_loop {Env} env_step tau node state total_reward depth terminal.
Arguments evaluate {Env} env_step {Rng} np_choice rollout g state total_reward limit.
Arguments run {Env} env_step {Rng} np_choice self state.
Arguments get_plan {Env Rng} self.
Arguments plan_loop {Env} env_step snapshot {Rng} np_choice self state n.
Arguments plan {Env} env_step snapshot {Rng} np_choice self state.
Arguments step_by_reset {Env Rng} self.
Arguments step_by_subtree {Env Rng} self action.
Arguments step {Env Rng} self action.
Arguments step_by_prior {Env Rng} self action.
Arguments env {Env Rng} _.
Arguments mcts {Env Rng} _.
Arguments assume_vehicle_type {Env Rng} _.
Arguments previous_action {Env Rng} _.
Arguments mkMCTSAgent {Env Rng} env mcts assume_vehicle_type previous_action.
Arguments set_mcts {Env Rng} self m.
Arguments set_previous_action {Env Rng} a self.
Arguments MCTSAgent_plan {Env} env_step snapshot {Rng} np_choice self state.
Arguments MCTSAgent_act {Env} env_step snapshot {Rng} np_choice self state.
Arguments MCTSAgent_reset {Env Rng} self.
Arguments agents {Env Rng} _.
Arguments mkRobust {Env Rng} agents.
Arguments plan_each {Env} env_step snapshot {Rng} np_choice l state.
Arguments restrict_min {Env Rng} min_action_values agent.
Arguments min_values {Env Rng} ACTIONS_keys l state.
Arguments RobustMCTSAgent_plan {Env} env_step snapshot {Rng} np_choice ACTIONS_keys self state.

(** ** JointEnv (robust.py) *)

(** A candidate environment, seen through what [JointEnv] reads of it: the
    result of [get_available_actions()] when the environment has this
    attribute, and [action_space.n]. *)
Record SubEnv : Type := mkSubEnv {
  get_available_actions : option (list action);
  action_space_n : Z }.

(** [s.get_available_actions() if hasattr(s, "get_available_actions")
     else range(s.action_space.n)]. *)
Definition available_or_all (s : SubEnv) : list action :=
  match get_available_actions s with
  | Some l => l
  | None => seqZ 0 (action_space_n s)
  end.

(** [JointEnv.get_available_actions()]: the list of the union of the empty
    set with the sets of all the environments of [joint_state]; the order of
    the list is that of the iteration over the set. *)
Definition JointEnv_get_available_actions (joint_state : list SubEnv) : list action :=
  elements (⋃ (map (fun s => list_to_set (available_or_all s)) joint_state) : gset Z).

(** ** Sample data *)

(** The state an outcome leaves. *)
Definition state_of {S A} (o : outcome S A) : S :=
  match o with
  | Done _ s => s
  | Raised _ s => s
  end.

(** [self'] is [self] with new children appended, each for an action of
    [actions] that has no child in [self], with the probability of the same
    index as prior. *)
Definition extends (actions : list action) (probabilities : list Q)
    (self self' : Node) : Prop :=
  prior self' = prior self /\ count self' = count self /\ value self' = value self /\
  exists added,
    children self' = children self ++ added /\
    forall k c, (k, c) ∈ added ->
      getitem (children self) k = None /\
      exists i p, actions !! i = Some k /\ probabilities !! i = Some p /\ c = new_Node p.

(** A node with three children, the second and the third with as many
    visits. *)
Definition sample_node : Node :=
  {| prior := 1; count := 8; value := 1 # 2;
     children :=
       [(0%Z, {| prior := 1 # 2; count := 2; value := 1; children := [] |});
        (1%Z, {| prior := 1 # 2; count := 3; value := 0; children := [] |});
        (2%Z, {| prior := 1 # 2; count := 3; value := 1 # 4; children := [] |})] |}.

(** A policy output is malformed when the actions and the probabilities differ
    in length, a probability is negative, or the probabilities do not sum
    to 1. *)
Definition malformed (d : distribution) : bool :=
  negb (Nat.eqb (length (fst d)) (length (snd d)))
  || existsb (fun p => Qltb p 0) (snd d)
  || negb (Qeq_bool (Qsum (snd d)) 1).

(** [expand] rejects the output [d] on the node [self]: it raises. *)
Definition rejects (self : Node) (d : distribution) : Prop :=
  exists e s, expand self d = Raised e s.

(** A policy output with a negative probability and of sum 4. *)
Definition bad_output : distribution := ([0%Z; 1%Z], [-1; 5]).

(** The conversion as the specification words it: the formula
    [reg * (count+1) / totalCount + reg / numChildren] with the regularization
    that was given, at every level of the subtree. *)
Fixpoint convert_as_specified (self : Node) (regularization : Q) : Node :=
  let total_count := Zsum (map (fun kc => (count (snd kc) + 1)%Z) (children self)) in
  let len := length (children self) in
  {| prior := prior self;
     count := 0;
     value := value self;
     children :=
       map (fun kc =>
              (fst kc,
               set_prior (regularization * inject_Z (count (snd kc) + 1) / inject_Z total_count
                          + regularization / inject_Z (Z.of_nat len))
                         (convert_as_specified (snd kc) regularization)))
           (children self) |}.

(** The priors of the children of a node, in the order of the dict. *)
Definition child_priors (self : Node) : list Q :=
  map (fun kc => prior (snd kc)) (children self).

(** A distribution that gives the same probability to all, of sum 1. *)
Definition uniform (ps : list Q) : Prop :=
  Forall (fun p => p == 1 / inject_Z (Z.of_nat (length ps))) ps.

(** A node whose two children have 0 and 2 visits. *)
Definition skewed_node : Node :=
  {| prior := 1; count := 2; value := 0;
     children :=
       [(0%Z, {| prior := 1 # 2; count := 0; value := 0; children := [] |});
        (1%Z, {| prior := 1 # 2; count := 2; value := 1; children := [] |})] |}.

(** A node with one child, which has one child. *)
Definition deep_node : Node :=
  {| prior := 1; count := 3; value := 0;
     children :=
       [(0%Z, {| prior := 1; count := 3; value := 0;
                 children :=
                   [(0%Z, {| prior := 1; count := 1; value := 0; children := [] |})] |})] |}.

(** [update] on the parent a crumb stands for. *)
Definition update_crumb (total_reward : Q) (c : Crumb) : Crumb :=
  let count' := (up_count c + 1)%Z in
  {| up_prior := up_prior c; up_count := count';
     up_value := up_value c + K / inject_Z count' * (total_reward - up_value c);
     before := before c; at_key := at_key c; after := after c |}.

(** The position of the focus under a trail. *)
Definition position_of (up : list Crumb) : list nat :=
  rev (map (fun c => length (before c)) up).

(** The second child of the first child of a three-level tree, as a
    location. *)
Definition sample_loc : Loc :=
  {| focus := {| prior := 1 # 2; count := 1; value := 1; children := [] |};
     trail :=
       [ {| up_prior := 1 # 2; up_count := 2; up_value := 1 # 2;
            before := [(0%Z, new_Node (1 # 2))]; at_key := 1%Z; after := [] |};
         {| up_prior := 1; up_count := 3; up_value := 1 # 3;
            before := []; at_key := 0%Z;
            after := [(1%Z, {| prior := 1 # 2; count := 1; value := 0; children := [] |})] |} ] |}.

(** The walk of [get_plan]: from a node, the temperature-0 action is taken
    and its child followed, until a node without children is reached. *)
Inductive greedy_walk : Node -> list action -> Prop :=
  | walk_stop node : children node = [] -> greedy_walk node []
  | walk_step node a child l :
      select_action node 0 = Some a ->
      getitem (children node) a = Some child ->
      greedy_walk child l ->
      greedy_walk node (a :: l).

(** A policy output that [expand] and the rollout can use for every state:
    at least one action, and a probability for each. *)
Definition offers_actions {Env} (policy : Env -> distribution) : Prop :=
  forall s, fst (policy s) <> [] /\ (length (fst (policy s)) <= length (snd (policy s)))%nat.

(** The choice of the random stream does not fail on the outputs of a
    policy. *)
Definition choice_defined {Env Rng}
    (np_choice : Rng -> list action -> list Q -> option (action * Rng))
    (policy : Env -> distribution) : Prop :=
  forall g s, is_Some (np_choice g (fst (policy s)) (snd (policy s))).

(** A deterministic environment with two actions and no terminal state: the
    action [good] yields the reward 1 and the other the reward 0. *)
Definition two_step (good : action) (s : unit) (a : action) : unit * Q * bool :=
  (tt, if Z.eqb a good then 1 else 0, false).

(** The uniform policy over the two actions. *)
Definition two_policy (s : unit) : distribution := ([0%Z; 1%Z], [1 # 2; 1 # 2]).

(** A random stream that always draws the first action; it refuses an empty
    list of actions. *)
Definition first_choice (g : unit) (actions : list action) (probabilities : list Q)
    : option (action * unit) :=
  match actions with
  | [] => None
  | a :: _ => Some (a, g)
  end.

(** A new agent on the two-action environment, with a given number of
    iterations, temperature 10 and depth 3. *)
Definition two_agent (iterations : nat) : MCTSAgent unit unit :=
  mkMCTSAgent tt (new_MCTS two_policy two_policy iterations 10 3 tt) None None.

(** The parameters of a search, which no iteration changes. *)
Definition same_setting {Env Rng} (m m' : MCTS Env Rng) : Prop :=
  prior_policy m' = prior_policy m /\ rollout_policy m' = rollout_policy m /\
  iterations m' = iterations m /\ temperature m' = temperature m /\
  max_depth m' = max_depth m.

(** The value of the child of the root of an agent's tree for an action. *)
Definition root_value {Env Rng} (agent : MCTSAgent Env Rng) (k : action) : option Q :=
  value <$> getitem (children (root (mcts agent))) k.

(** The action is among the root children of every agent. *)
Definition in_every_root {Env Rng} (l : list (MCTSAgent Env Rng)) (k : action) : bool :=
  forallb (fun agent => contains (children (root (mcts agent))) k) l.

(** The keys of [state.ACTIONS] that are among the root children of every
    agent, in the order of [state.ACTIONS]. *)
Definition candidates {Env Rng} (ACTIONS_keys : Env -> list action)
    (l : list (MCTSAgent Env Rng)) (state : Env) : list action :=
  List.filter (in_every_root l) (ACTIONS_keys state).

(** [v] is the minimum of the root-child values of the action [k] across the
    agents: below each of them and equal to one of them; it is [np.inf]
    when there is no agent. *)
Definition is_min_value {Env Rng} (l : list (MCTSAgent Env Rng)) (k : action)
    (v : xfloat) : Prop :=
  (forall agent q, agent ∈ l -> root_value agent k = Some q -> xltb (Fin q) v = false) /\
  (l = [] -> v = Inf) /\
  (l <> [] -> exists agent q, agent ∈ l /\ root_value agent k = Some q /\ v = Fin q).

(** An ensemble of two agents on the environment where the action 1 is the
    rewarded one, each with three iterations. *)
Definition two_ensemble : RobustMCTSAgent unit unit :=
  mkRobust [two_agent 3; two_agent 3].

(** A policy that offers a single action, and an agent that uses it. *)
Definition one_policy (a : action) (s : unit) : distribution := ([a], [1]).

Definition one_agent (a : action) (iterations : nat) : MCTSAgent unit unit :=
  mkMCTSAgent tt (new_MCTS (one_policy a) (one_policy a) iterations 10 3 tt) None None.

(** An ensemble of two agents that explore different actions. *)
Definition disjoint_ensemble : RobustMCTSAgent unit unit :=
  mkRobust [one_agent 0%Z 2; one_agent 1%Z 2].

(** ** Further code of mcts.py *)

(** [Node.max_update(total_reward)]:
    [self.count += 1; self.value = max(total_reward, self.value)]; of two
    arguments [max] returns the first unless the second is strictly
    greater. *)
Definition max_update (self : Node) (total_reward : Q) : Node :=
  {| prior := prior self;
     count := (count self + 1)%Z;
     value := if Qltb total_reward (value self) then value self else total_reward;
     children := children self |}.

(** Successive calls of [max_update], one per reward. *)
Definition max_updates (self : Node) (rewards : list Q) : Node :=
  fold_left max_update rewards self.

(** [np.ones(n) / d]. *)
Definition ones_over (n : nat) (d : Q) : list Q := replicate n (1 / d).

(** [MCTSAgent.random_policy(state)]: [np.arange(state.action_space.n)] with
    the probabilities [np.ones(len(actions)) / len(actions)]. The state is
    seen through its [action_space.n] and its optional
    [get_available_actions]. *)
Definition random_policy (state : SubEnv) : distribution :=
  let actions := seqZ 0 (action_space_n state) in
  (actions, ones_over (length actions) (inject_Z (Z.of_nat (length actions)))).

(** [MCTSAgent.random_available_policy(state)]. *)
Definition random_available_policy (state : SubEnv) : distribution :=
  let available_actions := available_or_all state in
  (available_actions,
   ones_over (length available_actions) (inject_Z (Z.of_nat (length available_actions)))).

(** The first index [i >= from] with [l[i] == x], as the loop
    [for i in range(len(l)): if l[i] == x] finds it. *)
Fixpoint first_index (l : list action) (x : action) (from : nat) : option nat :=
  match l with
  | [] => None
  | y :: l' => if Z.eqb y x then Some from else first_index l' x (S from)
  end.

(** [MCTSAgent.preference_policy(state, action_index, ratio)]. *)
Definition preference_policy (state : SubEnv) (action_index : action) (ratio : Q)
    : distribution :=
  let available_actions := available_or_all state in
  match first_index available_actions action_index 0 with
  | Some i =>
    (available_actions,
     alter (fun p => p * ratio) i
           (ones_over (length available_actions)
                      (inject_Z (Z.of_nat (length available_actions)) - 1 + ratio)))
  | None => random_available_policy state
  end.

(** [MCTSAgent.fast_policy] and [MCTSAgent.idle_policy], with the default
    [ratio=2]. *)
Definition fast_policy (state : SubEnv) : distribution := preference_policy state 3%Z 2.

Definition idle_policy (state : SubEnv) : distribution := preference_policy state 0%Z 2.

(** [RobustMCTSAgent.act(state)]: [self.plan(state)[0]]. *)
Definition RobustMCTSAgent_act {Env Rng : Type}
    (env_step : Env -> action -> Env * Q * bool) (snapshot : Env -> Env)
    (np_choice : Rng -> list action -> list Q -> option (action * Rng))
    (ACTIONS_keys : Env -> list action) (self : RobustMCTSAgent Env Rng) (state : Env)
    : outcome (RobustMCTSAgent Env Rng) action :=
  match RobustMCTSAgent_plan env_step snapshot np_choice ACTIONS_keys self state with
  | Raised e self' => Raised e self'
  | Done actions self' =>
    match actions with
    | [] => Raised IndexError self'
    | a :: _ => Done a self'
    end
  end.

(** [RobustMCTSAgent.reset()]. *)
Definition RobustMCTSAgent_reset {Env Rng : Type} (self : RobustMCTSAgent Env Rng)
    : RobustMCTSAgent Env Rng :=
  mkRobust (map MCTSAgent_reset (agents self)).

(** ** Further code of robust.py *)

(** [JointEnv.step(action)]: every environment of [joint_state] is stepped
    with the action, and the list of the transitions is transposed into the
    observations, rewards, terminal flags and infos; with no environment the
    transposition yields nothing and the unpacking into four names raises
    [ValueError]. [step] is the [step] of an environment, with the state
    it leaves. *)
Definition JointEnv_step {Env Obs Info : Type}
    (step : Env -> action -> Env * (Obs * Q * bool * Info))
    (joint_state : list Env) (action : action)
    : outcome (list Env) (list Obs * list Q * list bool * list Info) :=
  let results := map (fun state => step state action) joint_state in
  let transitions := map snd results in
  match transitions with
  | [] => Raised ValueError (map fst results)
  | _ :: _ =>
    Done (map (fun t => fst (fst (fst t))) transitions,
          map (fun t => snd (fst (fst t))) transitions,
          map (fun t => snd (fst t)) transitions,
          map (fun t => snd t) transitions)
         (map fst results)
  end.

(** ** Code of common.py *)

(** [s.split(sep)] for a separator of one character: the pieces between the
    occurrences of the separator, one more than there are occurrences. *)
Fixpoint split_on (sep : ascii) (s : string) : list string :=
  match s with
  | EmptyString => [EmptyString]
  | String c s' =>
    if Ascii.eqb c sep then EmptyString :: split_on sep s'
    else match split_on sep s' with
         | piece :: pieces => String c piece :: pieces
         | [] => [String c EmptyString]
         end
  end.

(** [s.rsplit(sep, 1)] when it has two pieces: the string before and the
    string after the last occurrence of the separator; [None] when the
    separator does not occur and the result is the single piece [s]. *)
Fixpoint rsplit_once (sep : ascii) (s : string) : option (string * string) :=
  match s with
  | EmptyString => None
  | String c s' =>
    match rsplit_once sep s' with
    | Some (front, back) => Some (String c front, back)
    | None => if Ascii.eqb c sep then Some (EmptyString, s') else None
    end
  end.

(** The exceptions of [agent_factory] before the import of the module. *)
Inductive factory_error : Type :=
  | MissingClass      (* the ValueError raised by agent_factory itself *)
  | NoQuotedPath      (* IndexError of [split("'")[1]] *)
  | NoModule.         (* ValueError of unpacking [rsplit(".", 1)] *)

(** The names [agent_factory(environment, config)] passes to
    [importlib.import_module] and [getattr]: [config] is seen through its
    string [config['__class__']], [None] when the key is absent. *)
Definition agent_class_path (class_repr : option string)
    : factory_error + string * string :=
  match class_repr with
  | None => inl MissingClass
  | Some repr =>
    match split_on "'"%char repr !! 1%nat with
    | None => inl NoQuotedPath
    | Some path =>
      match rsplit_once "."%char path with
      | None => inl NoModule
      | Some (module_name, class_name) => inr (module_name, class_name)
      end
    end
  end.

(** The character does not occur in the string. *)
Fixpoint absent (c : ascii) (s : string) : bool :=
  match s with
  | EmptyString => true
  | String c' s' => negb (Ascii.eqb c' c) && absent c s'
  end.

(** The [repr] of a Python class of a module. *)
Definition class_repr (module_name class_name : string) : string :=
  ("<class '" ++ module_name ++ "." ++ class_name ++ "'>")%string.

(** The rewards of the environment are between 0 and [rmax]. *)
Definition rewards_within {Env} (env_step : Env -> action -> Env * Q * bool) (rmax : Q)
    : Prop :=
  forall s a, 0 <= snd (fst (env_step s a)) /\ snd (fst (env_step s a)) <= rmax.

(** What [expand] stores: seen as a map, the children of [self'] are those of
    [self], kept as they are, and, for each action of [actions] that has no
    child in [self], a new node whose prior is the probability at the first
    index of this action; no other action has a child. *)
Definition stores_priors (actions : list action) (probabilities : list Q)
    (self self' : Node) : Prop :=
  forall a,
    match getitem (children self) a with
    | Some c => getitem (children self') a = Some c
    | None =>
      match first_index actions a 0 with
      | Some j => exists p, probabilities !! j = Some p /\
                            getitem (children self') a = Some (new_Node p)
      | None => getitem (children self') a = None
      end
    end.

(** * Properties *)

(** ** Node.update (C1) *)

Lemma update_count self r : count (update self r) = (count self + 1)%Z.
Proof. reflexivity. Qed.

Lemma updates_cons self r rs : updates self (r :: rs) = updates (update self r) rs.
Proof. reflexivity. Qed.

Lemma updates_count rewards : forall self,
  count (updates self rewards) = (count self + Z.of_nat (length rewards))%Z.
Proof.
  induction rewards as [|r rs IH]; intros self.
  - simpl. lia.
  - rewrite updates_cons, IH, update_count. simpl length. lia.
Qed.

(** The recurrence of [update] keeps [count * value] equal to the sum of what
    was folded in: after the call, [count' * value' == count * value + r]. *)
Lemma update_weighted self r :
  (0 <= count self)%Z ->
  inject_Z (count (update self r)) * value (update self r)
  == inject_Z (count self) * value self + r.
Proof.
  intros Hc. simpl. unfold K.
  rewrite inject_Z_plus. change (inject_Z 1) with 1.
  assert (Hpos : 0 <= inject_Z (count self)).
  { change 0 with (inject_Z 0). rewrite <- Zle_Qle. exact Hc. }
  field. lra.
Qed.

Lemma updates_weighted rewards : forall self,
  (0 <= count self)%Z ->
  inject_Z (count (updates self rewards)) * value (updates self rewards)
  == inject_Z (count self) * value self + Qsum rewards.
Proof.
  induction rewards as [|r rs IH]; intros self Hc.
  - simpl. ring.
  - rewrite updates_cons, IH by (rewrite update_count; lia).
    rewrite update_weighted by exact Hc. simpl. ring.
Qed.

(** C1. On a node that has no visit yet and value 0, as every node is when it
    is created, the [N] calls [update(r1)], ..., [update(rN)] leave the visit
    count [N] and the value equal to the arithmetic mean of [r1 .. rN]. *)
Theorem update_running_mean (self : Node) (rewards : list Q) :
  count self = 0%Z -> value self == 0 ->
  count (updates self rewards) = Z.of_nat (length rewards) /\
  value (updates self rewards) == mean rewards.
Proof.
  intros Hc Hv. split.
  - rewrite updates_count, Hc. lia.
  - unfold mean. destruct rewards as [|r rs].
    + simpl. rewrite Hv. reflexivity.
    + pose proof (updates_weighted (r :: rs) self) as Hw.
      rewrite updates_count, Hc in Hw.
      specialize (Hw ltac:(lia)).
      rewrite Z.add_0_l in Hw.
      assert (Hn : ~ inject_Z (Z.of_nat (length (r :: rs))) == 0).
      { change 0 with (inject_Z 0). rewrite inject_Z_injective. simpl length. lia. }
      apply (Qmult_inj_l _ _ _ Hn). rewrite Hw.
      change (inject_Z 0) with 0. field. exact Hn.
Qed.

Lemma update_running_mean_witness :
  count (updates (new_Node (1 # 3)) [1; 0; 1 # 2]) = 3%Z /\
  value (updates (new_Node (1 # 3)) [1; 0; 1 # 2]) == 1 # 2.
Proof.
  destruct (update_running_mean (new_Node (1 # 3)) [1; 0; 1 # 2]) as [Hc Hv];
    [reflexivity | reflexivity |].
  split; [exact Hc | rewrite Hv; reflexivity].
Defined.

(** ** JointEnv.get_available_actions (C10) *)

(** C10. The actions returned by [JointEnv.get_available_actions] are exactly
    those available in at least one of the environments (the union, without
    repetition), an environment without availability query counting with its
    whole action space [0 .. n-1]. *)
Theorem joint_available_actions_union (joint_state : list SubEnv) :
  NoDup (JointEnv_get_available_actions joint_state) /\
  forall a : action,
    a ∈ JointEnv_get_available_actions joint_state <->
    exists s, s ∈ joint_state /\
      match get_available_actions s with
      | Some l => a ∈ l
      | None => (0 <= a < action_space_n s)%Z
      end.
Proof.
  unfold JointEnv_get_available_actions. split.
  - apply NoDup_elements.
  - intros a. rewrite elem_of_elements, elem_of_union_list. split.
    + intros (X & HX & Ha). apply list_elem_of_fmap in HX as (s & -> & Hs).
      exists s. split; [exact Hs|].
      apply elem_of_list_to_set in Ha. unfold available_or_all in Ha.
      destruct (get_available_actions s); [exact Ha|].
      apply elem_of_seqZ in Ha. lia.
    + intros (s & Hs & Ha).
      exists (list_to_set (available_or_all s)). split.
      * apply list_elem_of_fmap. exists s. split; [reflexivity | exact Hs].
      * apply elem_of_list_to_set. unfold available_or_all.
        destruct (get_available_actions s); [exact Ha|].
        apply elem_of_seqZ. lia.
Qed.

(** ** max with a key, and dict lookups *)

Section PyMax.
Context {A B : Type} (ltb : B -> B -> bool) (f : A -> B).
Hypothesis ltb_trans : forall x y z, ltb x y = true -> ltb y z = true -> ltb x z = true.
Hypothesis geb_trans : forall x y z, ltb x y = false -> ltb y z = false -> ltb x z = false.

(** [max] returns the first of the items with a maximal key: the items
    before it have a strictly smaller key, and no item after it has a
    greater one. *)
Lemma max_from_first (l : list A) : forall best,
  exists l1 l2,
    best :: l = l1 ++ max_from ltb f best l :: l2 /\
    (forall x, x ∈ l1 -> ltb (f x) (f (max_from ltb f best l)) = true) /\
    (forall x, x ∈ l2 -> ltb (f (max_from ltb f best l)) (f x) = false).
Proof.
  induction l as [|x l IH]; intros best; simpl.
  - exists [], []. repeat split; intros y Hy; inversion Hy.
  - destruct (ltb (f best) (f x)) eqn:Hlt.
    + destruct (IH x) as (l1 & l2 & Heq & H1 & H2).
      revert Heq H1 H2. generalize (max_from ltb f x l). intros r Heq H1 H2.
      exists (best :: l1), l2. split; [simpl; congruence|]. split; [|exact H2].
      intros y Hy. apply elem_of_cons in Hy as [->|Hy]; [|auto].
      destruct l1 as [|z l1]; simpl in Heq; injection Heq as Hx Hl.
      * rewrite <- Hx. exact Hlt.
      * apply ltb_trans with (f z); [rewrite <- Hx; exact Hlt|]. apply H1. left.
    + destruct (IH best) as (l1 & l2 & Heq & H1 & H2).
      revert Heq H1 H2. generalize (max_from ltb f best l). intros r Heq H1 H2.
      destruct l1 as [|z l1]; simpl in Heq; injection Heq as Hx Hl.
      * exists [], (x :: l). split; [simpl; congruence|].
        split; [intros y Hy; inversion Hy|].
        intros y Hy. rewrite <- Hx.
        apply elem_of_cons in Hy as [->|Hy]; [exact Hlt|].
        rewrite Hx. apply H2. rewrite <- Hl. exact Hy.
      * exists (z :: x :: l1), l2. split; [simpl; congruence|]. split; [|exact H2].
        intros y Hy. apply elem_of_cons in Hy as [->|Hy]; [apply H1; left|].
        apply elem_of_cons in Hy as [->|Hy]; [|apply H1; right; exact Hy].
        destruct (ltb (f x) (f r)) eqn:Hyr; [reflexivity|].
        pose proof (geb_trans _ _ _ Hlt Hyr) as Hbr.
        specialize (H1 z ltac:(left)). rewrite <- Hx in H1. congruence.
Qed.

Lemma py_max_first (l : list A) :
  l <> [] ->
  exists r l1 l2,
    py_max ltb f l = Some r /\ l = l1 ++ r :: l2 /\
    (forall x, x ∈ l1 -> ltb (f x) (f r) = true) /\
    (forall x, x ∈ l2 -> ltb (f r) (f x) = false).
Proof.
  destruct l as [|x l]; [congruence|]. intros _. simpl.
  destruct (max_from_first l x) as (l1 & l2 & Heq & H1 & H2).
  exists (max_from ltb f x l), l1, l2. auto.
Qed.

Lemma py_max_None (l : list A) : py_max ltb f l = None <-> l = [].
Proof. destruct l; simpl; split; congruence. Qed.
End PyMax.

Lemma Qltb_lt x y : Qltb x y = true <-> x < y.
Proof.
  unfold Qltb. rewrite negb_true_iff, <- not_true_iff_false, Qle_bool_iff.
  split; [apply Qnot_le_lt | apply Qlt_not_le].
Qed.

Lemma Qltb_ge x y : Qltb x y = false <-> y <= x.
Proof. unfold Qltb. rewrite negb_false_iff. apply Qle_bool_iff. Qed.

Lemma Qltb_trans x y z : Qltb x y = true -> Qltb y z = true -> Qltb x z = true.
Proof. rewrite !Qltb_lt. apply Qlt_trans. Qed.

Lemma Qgeb_trans x y z : Qltb x y = false -> Qltb y z = false -> Qltb x z = false.
Proof. rewrite !Qltb_ge. intros H1 H2. apply Qle_trans with y; assumption. Qed.

Lemma Zltb_trans x y z : Z.ltb x y = true -> Z.ltb y z = true -> Z.ltb x z = true.
Proof. rewrite !Z.ltb_lt. lia. Qed.

Lemma Zgeb_trans x y z : Z.ltb x y = false -> Z.ltb y z = false -> Z.ltb x z = false.
Proof. rewrite !Z.ltb_ge. lia. Qed.

Lemma getitem_Some_keys {A} (d : list (action * A)) k x :
  getitem d k = Some x -> k ∈ keys d.
Proof.
  induction d as [|[k' y] d IH]; simpl; [discriminate|].
  destruct (Z.eqb_spec k' k) as [->|Hne]; intros H.
  - left.
  - right. auto.
Qed.

Lemma keys_getitem {A} (d : list (action * A)) k :
  k ∈ keys d -> exists x, getitem d k = Some x.
Proof.
  induction d as [|[k' y] d IH]; simpl; intros H.
  - inversion H.
  - destruct (Z.eqb_spec k' k) as [->|Hne]; [eauto|].
    apply elem_of_cons in H as [->|H]; [congruence | auto].
Qed.

Lemma item_getitem {A} (dflt : A) d k x : getitem d k = Some x -> item dflt d k = x.
Proof. unfold item. intros ->. reflexivity. Qed.

Lemma elem_of_middle {A} (x : A) l1 l2 : x ∈ l1 ++ x :: l2.
Proof. apply elem_of_app. right. left. Qed.

(** ** Node.select_action (C3) *)

(** C3. [select_action] returns [None] on a node without children. On a node
    with children, at temperature 0 it returns the first inserted of the
    actions whose child has the greatest visit count, and at another
    temperature an action whose child maximises
    [value + temperature * prior / (count + 1)]. *)
Theorem select_action_spec (self : Node) (temperature : Q) :
  (children self = [] -> select_action self temperature = None) /\
  (children self <> [] -> temperature == 0 ->
   exists a c l1 l2,
     select_action self temperature = Some a /\
     getitem (children self) a = Some c /\
     keys (children self) = l1 ++ a :: l2 /\
     (forall k c', getitem (children self) k = Some c' -> (count c' <= count c)%Z) /\
     (forall k c', k ∈ l1 -> getitem (children self) k = Some c' ->
                   (count c' < count c)%Z)) /\
  (children self <> [] -> ~ temperature == 0 ->
   exists a c,
     select_action self temperature = Some a /\
     getitem (children self) a = Some c /\
     forall k c', getitem (children self) k = Some c' ->
       value c' + temperature * prior c' / inject_Z (count c' + 1)
       <= value c + temperature * prior c / inject_Z (count c + 1)).
Proof.
  unfold select_action. split; [|split].
  - intros ->. reflexivity.
  - intros Hne Ht. apply Qeq_bool_iff in Ht. rewrite Ht.
    assert (Hk : keys (children self) <> []).
    { destruct (children self); [congruence | discriminate]. }
    destruct (py_max_first Z.ltb (fun key => count (item root_Node (children self) key))
                Zltb_trans Zgeb_trans _ Hk) as (a & l1 & l2 & Hmax & Heq & H1 & H2).
    destruct (keys_getitem (children self) a) as [c Hc].
    { rewrite Heq. apply elem_of_middle. }
    exists a, c, l1, l2.
    destruct (children self) as [|kc d] eqn:Hd; [congruence|]. rewrite <- Hd in *.
    split; [exact Hmax|]. split; [exact Hc|]. split; [exact Heq|].
    rewrite (item_getitem _ _ _ _ Hc) in H1, H2. split.
    + intros k c' Hc'. pose proof (getitem_Some_keys _ _ _ Hc') as Hin.
      rewrite Heq in Hin. apply elem_of_app in Hin as [Hin|Hin].
      * specialize (H1 k Hin). rewrite (item_getitem _ _ _ _ Hc') in H1.
        apply Z.ltb_lt in H1. lia.
      * apply elem_of_cons in Hin as [->|Hin]; [replace c' with c by congruence; lia|].
        specialize (H2 k Hin). rewrite (item_getitem _ _ _ _ Hc') in H2.
        apply Z.ltb_ge in H2. exact H2.
    + intros k c' Hin Hc'. specialize (H1 k Hin).
      rewrite (item_getitem _ _ _ _ Hc') in H1. apply Z.ltb_lt in H1. exact H1.
  - intros Hne Ht.
    assert (Hb : Qeq_bool temperature 0 = false).
    { apply not_true_iff_false. rewrite Qeq_bool_iff. exact Ht. }
    rewrite Hb.
    assert (Hk : keys (children self) <> []).
    { destruct (children self); [congruence | discriminate]. }
    destruct (py_max_first Qltb
                (fun key => selection_strategy (Some self)
                              (item root_Node (children self) key) temperature)
                Qltb_trans Qgeb_trans _ Hk) as (a & l1 & l2 & Hmax & Heq & H1 & H2).
    destruct (keys_getitem (children self) a) as [c Hc].
    { rewrite Heq. apply elem_of_middle. }
    exists a, c.
    destruct (children self) as [|kc d] eqn:Hd; [congruence|]. rewrite <- Hd in *.
    split; [exact Hmax|]. split; [exact Hc|].
    rewrite (item_getitem _ _ _ _ Hc) in H1, H2. unfold selection_strategy in H1, H2.
    intros k c' Hc'. pose proof (getitem_Some_keys _ _ _ Hc') as Hin.
    rewrite Heq in Hin. apply elem_of_app in Hin as [Hin|Hin].
    + specialize (H1 k Hin). rewrite (item_getitem _ _ _ _ Hc') in H1.
      apply Qltb_lt in H1. apply Qlt_le_weak. exact H1.
    + apply elem_of_cons in Hin as [->|Hin].
      * replace c' with c by congruence. apply Qle_refl.
      * specialize (H2 k Hin). rewrite (item_getitem _ _ _ _ Hc') in H2.
        apply Qltb_ge in H2. exact H2.
Qed.

Lemma select_action_spec_witness :
  select_action root_Node 0 = None /\
  (exists a, select_action sample_node 0 = Some a) /\
  (exists a, select_action sample_node 10 = Some a).
Proof.
  destruct (select_action_spec root_Node 0) as (H0 & _ & _).
  destruct (select_action_spec sample_node 0) as (_ & H1 & _).
  destruct (select_action_spec sample_node 10) as (_ & _ & H2).
  split; [apply H0; reflexivity|]. split.
  - destruct H1 as (a & c & l1 & l2 & Hsel & _); [discriminate | reflexivity |].
    exists a. exact Hsel.
  - destruct H2 as (a & c & Hsel & _); [discriminate | discriminate |].
    exists a. exact Hsel.
Defined.

(** On [sample_node]: the second action has the first maximal count, and the
    first action has the best score at temperature 10. *)
Example select_action_sample :
  select_action sample_node 0 = Some 1%Z /\ select_action sample_node 10 = Some 0%Z.
Proof. split; reflexivity. Qed.

(** ** Node.expand (C4, C9) *)

Lemma getitem_app {A} (d1 d2 : list (action * A)) k :
  getitem (d1 ++ d2) k =
  match getitem d1 k with Some x => Some x | None => getitem d2 k end.
Proof.
  induction d1 as [|[k' x] d1 IH]; simpl; [reflexivity|].
  destruct (Z.eqb k' k); [reflexivity | exact IH].
Qed.

Lemma contains_app {A} (d1 d2 : list (action * A)) k :
  contains (d1 ++ d2) k = contains d1 k || contains d2 k.
Proof.
  unfold contains. rewrite getitem_app.
  destruct (getitem d1 k); [reflexivity|]. destruct (getitem d2 k); reflexivity.
Qed.

Lemma extends_refl actions probabilities self : extends actions probabilities self self.
Proof.
  repeat split. exists []. split; [symmetry; apply app_nil_r|].
  intros k c H. inversion H.
Qed.

Lemma extends_trans actions probabilities s1 s2 s3 :
  extends actions probabilities s1 s2 -> extends actions probabilities s2 s3 ->
  extends actions probabilities s1 s3.
Proof.
  intros (Hp1 & Hc1 & Hv1 & add1 & Hch1 & Hadd1) (Hp2 & Hc2 & Hv2 & add2 & Hch2 & Hadd2).
  split; [congruence|]. split; [congruence|]. split; [congruence|].
  exists (add1 ++ add2). split; [rewrite Hch2, Hch1, app_assoc; reflexivity|].
  intros k c Hin. apply elem_of_app in Hin as [Hin|Hin]; [auto|].
  destruct (Hadd2 k c Hin) as (Hnone & Hi). split; [|exact Hi].
  rewrite Hch1, getitem_app in Hnone. destruct (getitem (children s1) k); congruence.
Qed.

Lemma expand_at_extends actions probabilities self i :
  extends actions probabilities self (state_of (expand_at actions probabilities self i)).
Proof.
  unfold expand_at.
  destruct (actions !! i) as [a|] eqn:Ha; [|apply extends_refl].
  destruct (contains (children self) a) eqn:Hc; [apply extends_refl|].
  destruct (probabilities !! i) as [p|] eqn:Hp; [|apply extends_refl].
  simpl. repeat split. exists [(a, new_Node p)]. split; [reflexivity|].
  intros k c Hin. apply list_elem_of_singleton in Hin. injection Hin as -> ->.
  split; [|eauto]. unfold contains in Hc. destruct (getitem (children self) a); congruence.
Qed.

Lemma for_each_expand_extends actions probabilities (l : list nat) : forall self,
  extends actions probabilities self
    (state_of (for_each (expand_at actions probabilities) l self)).
Proof.
  induction l as [|i l IH]; intros self; simpl; [apply extends_refl|].
  pose proof (expand_at_extends actions probabilities self i) as H1.
  destruct (expand_at actions probabilities self i) as [[] s|e s]; simpl in *.
  - eapply extends_trans; [exact H1 | apply IH].
  - exact H1.
Qed.

Lemma extends_getitem actions probabilities self self' k c :
  extends actions probabilities self self' ->
  getitem (children self) k = Some c -> getitem (children self') k = Some c.
Proof.
  intros (_ & _ & _ & added & Hch & _) H. rewrite Hch, getitem_app, H. reflexivity.
Qed.

Lemma extends_contains actions probabilities self self' k :
  extends actions probabilities self self' ->
  contains (children self) k = true -> contains (children self') k = true.
Proof.
  intros (_ & _ & _ & added & Hch & _) H. rewrite Hch, contains_app, H. reflexivity.
Qed.

(** After a call of [expand] that returns, every action of the indices it
    went through has a child. *)
Lemma for_each_expand_covers actions probabilities (l : list nat) : forall self self',
  for_each (expand_at actions probabilities) l self = Done tt self' ->
  forall i a, i ∈ l -> actions !! i = Some a -> contains (children self') a = true.
Proof.
  induction l as [|j l IH]; intros self self' Hrun i a Hin Ha; [inversion Hin|].
  simpl in Hrun.
  destruct (expand_at actions probabilities self j) as [[] s|e s] eqn:Hstep; [|discriminate].
  apply elem_of_cons in Hin as [->|Hin]; [|eapply IH; eauto].
  pose proof (for_each_expand_extends actions probabilities l s) as Hext.
  rewrite Hrun in Hext. simpl in Hext.
  eapply extends_contains; [exact Hext|].
  unfold expand_at in Hstep. rewrite Ha in Hstep.
  destruct (contains (children self) a) eqn:Hc; [congruence|].
  destruct (probabilities !! j); [|discriminate].
  injection Hstep as <-. simpl. rewrite contains_app. unfold contains at 2. simpl.
  rewrite Z.eqb_refl. apply orb_true_r.
Qed.

(** On a node where all the actions have a child, [expand] changes nothing
    (and reads no probability). *)
Lemma for_each_expand_covered actions probabilities (l : list nat) self :
  (forall i, i ∈ l -> exists a, actions !! i = Some a /\ contains (children self) a = true) ->
  for_each (expand_at actions probabilities) l self = Done tt self.
Proof.
  induction l as [|j l IH]; intros H; simpl; [reflexivity|].
  destruct (H j ltac:(left)) as (a & Ha & Hc).
  unfold expand_at at 1. rewrite Ha, Hc. apply IH. intros i Hi. apply H. right. exact Hi.
Qed.

(** C4. [expand] only appends children, each for an action without child and
    with the prior of its index; the node's own fields and every existing
    child, whole, are left as they were; and a second call with the same
    distribution changes nothing at all. *)
Theorem expand_idempotent (self : Node) (actions : list action) (probabilities : list Q) :
  extends actions probabilities self (state_of (expand self (actions, probabilities))) /\
  (forall k c, getitem (children self) k = Some c ->
     getitem (children (state_of (expand self (actions, probabilities)))) k = Some c) /\
  (forall self', expand self (actions, probabilities) = Done tt self' ->
     expand self' (actions, probabilities) = Done tt self').
Proof.
  unfold expand. split; [apply for_each_expand_extends|]. split.
  - intros k c. apply (extends_getitem actions probabilities).
    apply for_each_expand_extends.
  - intros self' Hrun. apply for_each_expand_covered. intros i Hi.
    apply elem_of_seq in Hi. destruct (lookup_lt_is_Some_2 actions i) as [a Ha]; [lia|].
    exists a. split; [exact Ha|].
    eapply for_each_expand_covers; [exact Hrun | | exact Ha].
    apply elem_of_seq. lia.
Qed.

Lemma expand_idempotent_witness :
  exists self',
    expand root_Node ([0%Z; 1%Z; 0%Z], [1 # 2; 1 # 2]) = Done tt self' /\
    expand self' ([0%Z; 1%Z; 0%Z], [1 # 2; 1 # 2]) = Done tt self'.
Proof.
  eexists. split; [reflexivity|].
  apply (expand_idempotent root_Node [0%Z; 1%Z; 0%Z] [1 # 2; 1 # 2]).
  reflexivity.
Defined.

(** When [expand] raises, it is an [IndexError], for an index that has no
    probability. *)
Lemma for_each_expand_raises actions probabilities (l : list nat) : forall self e s,
  (forall i, i ∈ l -> (i < length actions)%nat) ->
  for_each (expand_at actions probabilities) l self = Raised e s ->
  e = IndexError /\ exists i, i ∈ l /\ (length probabilities <= i)%nat.
Proof.
  induction l as [|j l IH]; intros self e s Hl Hrun; simpl in Hrun; [discriminate|].
  destruct (expand_at actions probabilities self j) as [[] s1|e1 s1] eqn:Hstep.
  - destruct (IH s1 e s) as (He & i & Hi & Hlen); [intros; apply Hl; right; done|done|].
    split; [exact He|]. exists i. split; [right; exact Hi | exact Hlen].
  - injection Hrun as <- <-. unfold expand_at in Hstep.
    destruct (lookup_lt_is_Some_2 actions j) as [a Ha]; [apply Hl; left|].
    rewrite Ha in Hstep. destruct (contains (children self) a); [discriminate|].
    destruct (probabilities !! j) eqn:Hp; [discriminate|].
    injection Hstep as <- _. split; [reflexivity|]. exists j. split; [left|].
    apply lookup_ge_None. exact Hp.
Qed.

(** C9 (as stated, refuted). The malformed output [bad_output] (a negative
    probability, sum 4) is not rejected by [expand]: the call returns, with
    the two probabilities stored as priors. *)
Lemma expand_accepts_malformed :
  malformed bad_output = true /\ ~ rejects root_Node bad_output /\
  expand root_Node bad_output =
    Done tt {| prior := 1; count := 0; value := 0;
               children := [(0%Z, new_Node (-1)); (1%Z, new_Node 5)] |}.
Proof.
  split; [reflexivity|]. split; [|reflexivity].
  intros (e & s & H). discriminate H.
Qed.

(** With a probability for each action, [expand] returns. *)
Lemma expand_returns self actions probabilities :
  (length actions <= length probabilities)%nat ->
  exists self',
    expand self (actions, probabilities) = Done tt self' /\
    extends actions probabilities self self'.
Proof.
  intros Hlen.
  pose proof (for_each_expand_extends actions probabilities
                (seq 0 (length actions)) self) as Hext.
  unfold expand.
  destruct (for_each (expand_at actions probabilities) (seq 0 (length actions)) self)
    as [[] s|e s] eqn:Hrun.
  - exists s. split; [reflexivity | exact Hext].
  - apply for_each_expand_raises in Hrun as (_ & i & Hi & Hge).
    + apply elem_of_seq in Hi. lia.
    + intros i Hi. apply elem_of_seq in Hi. lia.
Qed.

(** [expand] raises only for want of a probability. *)
Lemma expand_raises_IndexError self actions probabilities e s :
  expand self (actions, probabilities) = Raised e s ->
  e = IndexError /\ (length probabilities < length actions)%nat.
Proof.
  intros Hrun. apply for_each_expand_raises in Hrun as (He & i & Hi & Hge).
  - apply elem_of_seq in Hi. split; [exact He | lia].
  - intros i Hi. apply elem_of_seq in Hi. lia.
Qed.

(** ** Node.convert_visits_to_prior_in_branch (C5, C6) *)

Lemma Node_induction (P : Node -> Prop) :
  (forall p c v ch, Forall (fun kc => P (snd kc)) ch -> P (mkNode p c v ch)) ->
  forall n, P n.
Proof.
  intros H. fix IH 1. intros [p c v ch]. apply H.
  revert ch. fix IHl 1. intros [|[k x] ch].
  - constructor.
  - constructor; [apply IH | apply IHl].
Qed.

Lemma convert_fields self reg :
  prior (convert_visits_to_prior_in_branch self reg) = prior self /\
  count (convert_visits_to_prior_in_branch self reg) = 0%Z /\
  value (convert_visits_to_prior_in_branch self reg) = value self.
Proof. destruct self; repeat split. Qed.

(** What the code does: the children of the converted node get their prior
    from the given regularization, and are themselves converted with 1/2. *)
Lemma convert_children self reg :
  children (convert_visits_to_prior_in_branch self reg) =
  map (fun kc =>
         (fst kc,
          set_prior (reg * inject_Z (count (snd kc) + 1)
                       / inject_Z (Zsum (map (fun kc => (count (snd kc) + 1)%Z) (children self)))
                     + reg / inject_Z (Z.of_nat (length (children self))))
                    (convert_visits_to_prior_in_branch (snd kc) (1 # 2))))
      (children self).
Proof. destruct self; reflexivity. Qed.

Lemma node_at_set_prior p self i pos :
  node_at (set_prior p self) (i :: pos) = node_at self (i :: pos).
Proof. reflexivity. Qed.

(** Every node of the converted subtree has its visit count reset. *)
Lemma convert_resets_counts pos : forall self reg n,
  node_at (convert_visits_to_prior_in_branch self reg) pos = Some n -> count n = 0%Z.
Proof.
  induction pos as [|i pos IH]; intros self reg n H.
  - injection H as <-. apply convert_fields.
  - simpl in H. rewrite convert_children in H.
    rewrite list_lookup_fmap in H.
    destruct (children self !! i) as [[k x]|]; simpl in H; [|discriminate].
    destruct pos as [|j pos].
    + injection H as <-. simpl. apply convert_fields.
    + rewrite node_at_set_prior in H. eapply IH. exact H.
Qed.

(** With the default regularization the code does what the specification
    describes. *)
Lemma convert_half_as_specified : forall self,
  convert_visits_to_prior_in_branch self (1 # 2) = convert_as_specified self (1 # 2).
Proof.
  apply Node_induction. intros p c v ch IH. simpl. f_equal.
  apply map_ext_Forall. eapply Forall_impl; [exact IH|].
  intros [k x] Hx. simpl in *. rewrite Hx. reflexivity.
Qed.

(** C5. On a node whose two children have 0 and 2 visits,
    [convert_visits_to_prior_in_branch(1)] sets the priors 3/4 and 5/4: they
    differ, and sum to 2, so they are not a uniform distribution. *)
Theorem convert_one_not_uniform :
  map Qred (child_priors (convert_visits_to_prior_in_branch skewed_node 1)) = [3 # 4; 5 # 4] /\
  ~ uniform (child_priors (convert_visits_to_prior_in_branch skewed_node 1)).
Proof.
  split; [reflexivity|].
  intros H. inversion H as [|p ps Hp _]. revert Hp. discriminate.
Qed.

(** C6. On a node with a child that has a child, with regularization 1, the
    prior of the grandchild is computed by the code with 1/2, which gives 1,
    where the given regularization gives 2; the visit counts are reset. *)
Theorem convert_default_below_first_level :
  (Qred ∘ prior) <$> node_at (convert_visits_to_prior_in_branch deep_node 1) [0%nat; 0%nat]
    = Some 1 /\
  (Qred ∘ prior) <$> node_at (convert_as_specified deep_node 1) [0%nat; 0%nat] = Some 2 /\
  (Qred ∘ prior) <$> node_at (convert_visits_to_prior_in_branch deep_node 1) [0%nat]
    = Some 2 /\
  count <$> node_at (convert_visits_to_prior_in_branch deep_node 1) [0%nat; 0%nat] = Some 0%Z.
Proof. repeat split. Qed.

(** ** Node.update_branch (C2) *)

Lemma root_from_app self up c :
  root_from self (up ++ [c]) = plug c (root_from self up).
Proof.
  revert self. induction up as [|c' up IH]; intros self; simpl; [reflexivity | apply IH].
Qed.

Lemma position_of_app up c :
  position_of (up ++ [c]) = length (before c) :: position_of up.
Proof. unfold position_of. rewrite map_app, rev_app_distr. reflexivity. Qed.

Lemma update_plug c self r :
  update (plug c self) r = plug (update_crumb r c) self.
Proof. reflexivity. Qed.

(** Following the parent links with [update] amounts to updating the focus
    and each crumb of the trail. *)
Lemma update_branch_from_crumbs up : forall self r,
  update_branch_from self up r = root_from (update self r) (map (update_crumb r) up).
Proof.
  induction up as [|c up IH]; intros self r; simpl; [reflexivity|].
  rewrite IH, update_plug. reflexivity.
Qed.

Lemma node_at_plug_hole c self pos :
  node_at (plug c self) (length (before c) :: pos) = node_at self pos.
Proof.
  simpl. rewrite lookup_app_r by lia. rewrite Nat.sub_diag. reflexivity.
Qed.

Lemma node_at_plug_other c c' self self' i pos :
  before c' = before c -> after c' = after c ->
  i <> length (before c) ->
  node_at (plug c' self') (i :: pos) = node_at (plug c self) (i :: pos).
Proof.
  intros Hb Ha Hi. simpl. rewrite Hb, Ha.
  destruct (Nat.lt_ge_cases i (length (before c))) as [Hlt|Hge].
  - rewrite !lookup_app_l by exact Hlt. reflexivity.
  - rewrite !lookup_app_r by exact Hge.
    destruct (i - length (before c))%nat eqn:Hd; [lia | reflexivity].
Qed.

Lemma node_at_focus up : forall self,
  node_at (root_from self up) (position_of up) = Some self.
Proof.
  induction up as [|c up IH] using rev_ind; intros self; [reflexivity|].
  rewrite root_from_app, position_of_app, node_at_plug_hole. apply IH.
Qed.

Lemma update_branch_from_spec up : forall self r pos,
  if is_prefix pos (position_of up)
  then exists n, node_at (root_from self up) pos = Some n /\
                 local <$> node_at (update_branch_from self up r) pos
                 = Some (local (update n r))
  else node_at (update_branch_from self up r) pos = node_at (root_from self up) pos.
Proof.
  intros self r. rewrite update_branch_from_crumbs.
  induction up as [|c up IH] using rev_ind; intros pos.
  - destruct pos as [|i pos]; simpl; [eauto | reflexivity].
  - rewrite map_app. change (map (update_crumb r) [c]) with [update_crumb r c].
    rewrite !root_from_app, position_of_app.
    destruct pos as [|i pos].
    + simpl is_prefix. eexists. split; [reflexivity|].
      simpl. unfold local, keys. simpl. rewrite !map_app. reflexivity.
    + simpl is_prefix. destruct (Nat.eqb_spec i (length (before c))) as [->|Hne].
      * simpl andb.
        assert (Hhole : forall x, node_at (plug (update_crumb r c) x)
                                    (length (before c) :: pos) = node_at x pos)
          by (intros x; apply (node_at_plug_hole (update_crumb r c))).
        rewrite Hhole, node_at_plug_hole. apply IH.
      * simpl andb. apply node_at_plug_other; [reflexivity | reflexivity | exact Hne].
Qed.

(** C2. For a node at depth [d] (a location with a trail of [d] ancestors, at
    a position of length [d] under the root), [update_branch(r)] leaves the
    tree in which the node itself is [update(r)] of what it was, each of the
    [d] ancestors (the nodes at the proper prefixes of the position) has
    received one [update(r)], and the node at any other position is the same
    as before. *)
Theorem update_branch_spec (self : Loc) (r : Q) :
  length (position self) = length (trail self) /\
  node_at (root_of self) (position self) = Some (focus self) /\
  node_at (update_branch self r) (position self) = Some (update (focus self) r) /\
  forall pos,
    if is_prefix pos (position self)
    then exists n, node_at (root_of self) pos = Some n /\
                   local <$> node_at (update_branch self r) pos
                   = Some (local (update n r))
    else node_at (update_branch self r) pos = node_at (root_of self) pos.
Proof.
  destruct self as [n up]. unfold position, root_of, update_branch. simpl.
  split; [rewrite length_rev, length_map; reflexivity|].
  split; [apply node_at_focus|]. split.
  - rewrite update_branch_from_crumbs.
    replace (rev (map (fun c => length (before c)) up))
      with (position_of (map (update_crumb r) up)).
    + apply node_at_focus.
    + unfold position_of. rewrite map_map. reflexivity.
  - apply update_branch_from_spec.
Qed.

(** On [sample_loc], at depth 2: the root, the first child and the node get
    one more visit each, and the siblings none. *)
Example update_branch_sample :
  count <$> node_at (update_branch sample_loc 1) [] = Some 4%Z /\
  count <$> node_at (update_branch sample_loc 1) [0%nat] = Some 3%Z /\
  count <$> node_at (update_branch sample_loc 1) [0%nat; 1%nat] = Some 2%Z /\
  count <$> node_at (update_branch sample_loc 1) [0%nat; 0%nat] = Some 0%Z /\
  count <$> node_at (update_branch sample_loc 1) [1%nat] = Some 1%Z.
Proof. repeat split. Qed.

(** ** MCTS.get_plan, MCTS.run, MCTS.plan and MCTSAgent.plan (C8) *)

Lemma getitem_map_values {A B} (f : A -> B) (d : list (action * A)) k :
  getitem (map (fun kc => (fst kc, f (snd kc))) d) k = f <$> getitem d k.
Proof.
  induction d as [|[k' x] d IH]; simpl; [reflexivity|].
  destruct (Z.eqb k' k); [reflexivity | exact IH].
Qed.

Lemma get_plan_from_unfold node :
  get_plan_from node =
  match select_action node 0 with
  | None => []
  | Some a => a :: match getitem (children node) a with
                   | Some child => get_plan_from child
                   | None => []
                   end
  end.
Proof.
  destruct node as [p c v ch]. simpl.
  destruct (select_action (mkNode p c v ch) 0) as [a|]; [|reflexivity].
  f_equal. unfold item. rewrite getitem_map_values.
  destruct (getitem ch a); reflexivity.
Qed.

Lemma max_from_elem {A B} (ltb : B -> B -> bool) (f : A -> B) (l : list A) : forall best,
  max_from ltb f best l ∈ best :: l.
Proof.
  induction l as [|x l IH]; intros best; simpl; [left|].
  destruct (ltb (f best) (f x)).
  - right. apply IH.
  - specialize (IH best). apply elem_of_cons in IH as [->|IH]; [left | right; right; exact IH].
Qed.

Lemma py_max_elem {A B} (ltb : B -> B -> bool) (f : A -> B) (l : list A) r :
  py_max ltb f l = Some r -> r ∈ l.
Proof.
  destruct l as [|x l]; simpl; [discriminate|]. intros [= <-]. apply max_from_elem.
Qed.

Lemma select_action_children node tau a :
  select_action node tau = Some a -> exists child, getitem (children node) a = Some child.
Proof.
  unfold select_action. intros H. apply keys_getitem.
  destruct (children node) as [|kc d]; [discriminate|].
  destruct (Qeq_bool tau 0); eapply py_max_elem; exact H.
Qed.

Lemma select_action_Some node tau :
  children node <> [] -> exists a, select_action node tau = Some a.
Proof.
  unfold select_action. intros H.
  destruct (children node) as [|kc d]; [congruence|].
  destruct (Qeq_bool tau 0); simpl; eauto.
Qed.

Lemma select_action_leaf node tau : children node = [] -> select_action node tau = None.
Proof. unfold select_action. intros ->. reflexivity. Qed.

(** [get_plan] is the walk. *)
Lemma get_plan_from_walk : forall node, greedy_walk node (get_plan_from node).
Proof.
  apply Node_induction. intros p c v ch IH.
  rewrite get_plan_from_unfold.
  destruct (select_action (mkNode p c v ch) 0) as [a|] eqn:Hsel.
  - destruct (select_action_children _ _ _ Hsel) as [child Hchild].
    rewrite Hchild. eapply walk_step; [exact Hsel | exact Hchild |].
    simpl in Hchild. clear Hsel. induction ch as [|[k x] ch IHch]; simpl in Hchild; [discriminate|].
    inversion IH as [|? ? Hx Hrest]; subst.
    destruct (Z.eqb k a); [injection Hchild as <-; exact Hx | auto].
  - apply walk_stop. destruct ch as [|kc ch]; [reflexivity|].
    destruct (select_action_Some (mkNode p c v (kc :: ch)) 0) as [a Ha]; [discriminate|].
    congruence.
Qed.

Lemma get_plan_from_nonempty node :
  children node <> [] -> exists a l, get_plan_from node = a :: l.
Proof.
  intros H. rewrite get_plan_from_unfold.
  destruct (select_action_Some node 0 H) as [a ->]. eauto.
Qed.

Lemma get_plan_from_leaf node : children node = [] -> get_plan_from node = [].
Proof.
  intros H. rewrite get_plan_from_unfold, select_action_leaf by exact H. reflexivity.
Qed.

Lemma update_branch_from_children up : forall self r,
  up <> [] \/ children self <> [] -> children (update_branch_from self up r) <> [].
Proof.
  induction up as [|c up IH]; intros self r H; simpl.
  - destruct H as [H|H]; [congruence | exact H].
  - apply IH. right. simpl. intros Heq. apply app_eq_nil in Heq as [_ Heq]. discriminate.
Qed.

(** A returning [expand] of a non-empty list of actions leaves children. *)
Lemma expand_children self actions probabilities self' :
  actions <> [] ->
  expand self (actions, probabilities) = Done tt self' -> children self' <> [].
Proof.
  intros Hne Hrun. destruct actions as [|a actions]; [congruence|].
  pose proof (for_each_expand_covers _ _ _ _ _ Hrun 0%nat a) as Hc.
  intros Hnil. rewrite Hnil in Hc. unfold contains in Hc. simpl in Hc.
  enough (false = true) by discriminate. apply Hc; [left | reflexivity].
Qed.

Section Planning.
Context {Env Rng : Type}.
Variable env_step : Env -> action -> Env * Q * bool.
Variable snapshot : Env -> Env.
Variable np_choice : Rng -> list action -> list Q -> option (action * Rng).

Lemma evaluate_returns rollout limit : forall g state total,
  choice_defined np_choice rollout ->
  exists q g', evaluate env_step np_choice rollout g state total limit = Done q g'.
Proof.
  induction limit as [|limit IH]; intros g state total Hch; simpl; [eauto|].
  pose proof (Hch g state) as Hc. destruct (rollout state) as [actions probabilities].
  simpl in Hc. destruct Hc as [[a g'] ->].
  destruct (env_step state a) as [[state' reward] terminal].
  destruct terminal; [eauto | apply IH; assumption].
Qed.

(** An iteration returns, and leaves a root with children. *)
Lemma run_returns (m : MCTS Env Rng) state :
  offers_actions (prior_policy m) ->
  choice_defined np_choice (rollout_policy m) ->
  exists m', run env_step np_choice m state = Done tt m' /\
             same_setting m m' /\ children (root m') <> [].
Proof.
  intros Hprior Hroll. unfold run.
  destruct (select_loop env_step (temperature m) {| focus := root m; trail := [] |}
              state 0 (max_depth m) false) as [[[[node st] total] depth] terminal].
  set (is_root := match trail node with [] => true | _ :: _ => false end).
  set (is_leaf := match children (focus node) with [] => true | _ :: _ => false end).
  assert (Hexp : exists n,
    (if is_leaf && (negb terminal || is_root)
     then expand (focus node) (prior_policy m st) else Done tt (focus node)) = Done tt n /\
    (trail node <> [] \/ children n <> [])).
  { destruct (is_leaf && (negb terminal || is_root)) eqn:Hcond.
    - destruct (Hprior st) as [Hne Hlen].
      destruct (prior_policy m st) as [actions probabilities]. simpl in Hne, Hlen.
      destruct (expand_returns (focus node) actions probabilities Hlen) as (n & Hn & _).
      exists n. split; [exact Hn|]. right. eapply expand_children; eauto.
    - exists (focus node). split; [reflexivity|].
      subst is_root is_leaf. destruct (trail node); [|left; discriminate].
      right. destruct (children (focus node)); [|discriminate].
      rewrite orb_true_r in Hcond. discriminate. }
  destruct Hexp as (n & -> & Hn).
  destruct terminal.
  - eexists. split; [reflexivity|]. split; [repeat split|].
    simpl. apply update_branch_from_children. exact Hn.
  - destruct (evaluate_returns (rollout_policy m) depth (np_random m) st total Hroll)
      as (q & g' & ->).
    eexists. split; [reflexivity|]. split; [repeat split|].
    simpl. apply update_branch_from_children. exact Hn.
Qed.

Lemma plan_loop_returns n : forall (m : MCTS Env Rng) state,
  offers_actions (prior_policy m) ->
  choice_defined np_choice (rollout_policy m) ->
  exists m', plan_loop env_step snapshot np_choice m state n = Done tt m' /\
             same_setting m m' /\
             (n = 0%nat /\ m' = m \/ children (root m') <> []).
Proof.
  induction n as [|n IH]; intros m state Hprior Hroll; simpl.
  - exists m. split; [reflexivity|]. split; [repeat split | left; auto].
  - destruct (run_returns m (snapshot state) Hprior Hroll) as (m1 & -> & Hsame & Hch).
    destruct Hsame as (Hp & Hr & Hi & Ht & Hd).
    destruct (IH m1 state) as (m' & Hrun & Hsame' & Hch').
    + rewrite Hp. exact Hprior.
    + rewrite Hr. exact Hroll.
    + exists m'. split; [exact Hrun|]. split.
      * destruct Hsame' as (Hp' & Hr' & Hi' & Ht' & Hd').
        repeat split; congruence.
      * right. destruct Hch' as [[_ ->]|Hch']; assumption.
Qed.

End Planning.

Lemma step_same_setting {Env Rng} (m : MCTS Env Rng) a : same_setting m (step m a).
Proof.
  unfold step, step_by_subtree, step_by_reset.
  destruct a as [a|]; [destruct (getitem (children (root m)) a)|]; repeat split.
Qed.

(** C8 (as stated, refuted). With zero iterations a new agent never expands
    its root: the plan of the search is empty, and the agent-level [plan]
    and [act] raise [IndexError]. *)
Lemma plan_zero_iterations_raises :
  plan (two_step 0%Z) id first_choice (mcts (two_agent 0)) tt = Done [] (mcts (two_agent 0)) /\
  children (root (mcts (two_agent 0))) = [] /\
  MCTSAgent_plan (two_step 0%Z) id first_choice (two_agent 0) tt
  = Raised IndexError (two_agent 0) /\
  MCTSAgent_act (two_step 0%Z) id first_choice (two_agent 0) tt
  = Raised IndexError (two_agent 0).
Proof. repeat split. Qed.

(** C8 (amended). Whenever [MCTS.plan] returns, its result is the walk from
    the root by the temperature-0 action down to a node without children.
    The root is expanded by the first iteration, not before: with zero
    iterations the tree is left as it is. For every iteration count of at
    least one, with a prior policy that offers at least one action and a
    probability for each, and a rollout choice that does not fail, the root
    has children after the search, the plan is not empty, and the agent-level
    [plan] and [act] return its first action, which becomes the previous
    action. *)
Theorem plan_anytime {Env Rng : Type} (env_step : Env -> action -> Env * Q * bool)
    (snapshot : Env -> Env)
    (np_choice : Rng -> list action -> list Q -> option (action * Rng))
    (agent : MCTSAgent Env Rng) (state : Env) :
  (forall m actions m',
     plan env_step snapshot np_choice m state = Done actions m' ->
     greedy_walk (root m') actions) /\
  (forall m, iterations m = 0%nat ->
     plan env_step snapshot np_choice m state = Done (get_plan m) m) /\
  (offers_actions (prior_policy (mcts agent)) ->
   choice_defined np_choice (rollout_policy (mcts agent)) ->
   (0 < iterations (mcts agent))%nat ->
   exists a actions agent',
     MCTSAgent_plan env_step snapshot np_choice agent state = Done (a :: actions) agent' /\
     MCTSAgent_act env_step snapshot np_choice agent state = Done a agent' /\
     previous_action agent' = Some a /\
     children (root (mcts agent')) <> [] /\
     greedy_walk (root (mcts agent')) (a :: actions)).
Proof.
  split; [|split].
  - intros m actions m' H. unfold plan in H.
    destruct (plan_loop env_step snapshot np_choice m state (iterations m)) as [[] m1|e m1];
      [|discriminate].
    injection H as <- <-. apply get_plan_from_walk.
  - intros m H. unfold plan. rewrite H. reflexivity.
  - intros Hprior Hroll Hit. unfold MCTSAgent_act, MCTSAgent_plan.
    set (m0 := step (mcts agent) (previous_action agent)).
    destruct (step_same_setting (mcts agent) (previous_action agent))
      as (Hp & Hr & Hi & _). fold m0 in Hp, Hr, Hi.
    destruct (plan_loop_returns env_step snapshot np_choice (iterations m0) m0 (env agent))
      as (m' & Hrun & _ & Hch).
    { rewrite Hp. exact Hprior. }
    { rewrite Hr. exact Hroll. }
    destruct Hch as [[Hz _]|Hch]; [lia|].
    simpl mcts. simpl env. unfold plan. rewrite Hrun.
    destruct (get_plan_from_nonempty (root m') Hch) as (a & l & Hplan).
    unfold get_plan. rewrite Hplan.
    exists a, l. eexists. split; [reflexivity|]. split; [reflexivity|].
    split; [reflexivity|]. split; [exact Hch|].
    simpl. rewrite <- Hplan. apply get_plan_from_walk.
Qed.

Lemma plan_anytime_witness :
  (exists a actions agent',
     MCTSAgent_plan (two_step 0%Z) id first_choice (two_agent 2) tt
     = Done (a :: actions) agent') /\
  plan (two_step 0%Z) id first_choice (mcts (two_agent 0)) tt
  = Done (get_plan (mcts (two_agent 0))) (mcts (two_agent 0)).
Proof.
  destruct (plan_anytime (two_step 0%Z) id first_choice (two_agent 2) tt) as (_ & _ & H).
  destruct (plan_anytime (two_step 0%Z) id first_choice (two_agent 0) tt) as (_ & H0 & _).
  split.
  - destruct H as (a & actions & agent' & Hplan & _).
    + intros s. simpl. split; [discriminate | lia].
    + intros g s. simpl. eauto.
    + simpl. lia.
    + exists a, actions, agent'. exact Hplan.
  - apply H0. reflexivity.
Defined.

(** On the two-action environment, four iterations at depth 3 already plan
    the rewarded action first. *)
Example plan_two_actions :
  match MCTSAgent_act (two_step 0%Z) id first_choice (two_agent 4) tt with
  | Done a _ => a = 0%Z
  | Raised _ _ => False
  end.
Proof. vm_compute. reflexivity. Qed.

(** ** RobustMCTSAgent.plan (C7) *)

Lemma xltb_irrefl x : xltb x x = false.
Proof. destruct x as [p|]; simpl; [|reflexivity]. apply Qltb_ge, Qle_refl. Qed.

Lemma xltb_trans x y z : xltb x y = true -> xltb y z = true -> xltb x z = true.
Proof.
  destruct x as [p|], y as [q|], z as [r|]; simpl; try congruence. apply Qltb_trans.
Qed.

Lemma xgeb_trans x y z : xltb x y = false -> xltb y z = false -> xltb x z = false.
Proof.
  destruct x as [p|], y as [q|], z as [r|]; simpl; try congruence. apply Qgeb_trans.
Qed.

Lemma xltb_asym x y : xltb x y = true -> xltb y x = false.
Proof.
  destruct x as [p|], y as [q|]; simpl; try congruence.
  rewrite Qltb_lt, Qltb_ge. apply Qlt_le_weak.
Qed.

Lemma py_min_le_l a b : xltb a (py_min a b) = false.
Proof.
  unfold py_min. destruct (xltb b a) eqn:H; [apply xltb_asym; exact H | apply xltb_irrefl].
Qed.

Lemma py_min_le_r a b : xltb b (py_min a b) = false.
Proof.
  unfold py_min. destruct (xltb b a) eqn:H; [apply xltb_irrefl | exact H].
Qed.

Lemma filter_and {A} (f g : A -> bool) (l : list A) :
  List.filter g (List.filter f l) = List.filter (fun x => f x && g x) l.
Proof.
  induction l as [|x l IH]; simpl; [reflexivity|].
  destruct (f x); simpl; [destruct (g x); simpl; congruence | exact IH].
Qed.

Section Robust.
Context {Env Rng : Type}.
Variable ACTIONS_keys : Env -> list action.

Lemma getitem_restrict_min (mav : list (action * xfloat)) (agent : MCTSAgent Env Rng) k :
  getitem (restrict_min mav agent) k =
  match getitem mav k, getitem (children (root (mcts agent))) k with
  | Some v, Some c => Some (py_min v (Fin (value c)))
  | _, _ => None
  end.
Proof.
  unfold restrict_min. induction mav as [|[k' v'] mav IH]; simpl; [reflexivity|].
  destruct (getitem (children (root (mcts agent))) k') as [c|] eqn:Hc; simpl.
  - destruct (Z.eqb_spec k' k) as [->|Hne]; [rewrite Hc; reflexivity | exact IH].
  - destruct (Z.eqb_spec k' k) as [->|Hne]; [|exact IH].
    etransitivity; [exact IH|]. rewrite Hc. destruct (getitem mav k); reflexivity.
Qed.

Lemma keys_restrict_min (mav : list (action * xfloat)) (agent : MCTSAgent Env Rng) :
  keys (restrict_min mav agent)
  = List.filter (contains (children (root (mcts agent)))) (keys mav).
Proof.
  unfold restrict_min, contains. induction mav as [|[k' v'] mav IH]; simpl; [reflexivity|].
  destruct (getitem (children (root (mcts agent))) k'); simpl;
    [f_equal|]; exact IH.
Qed.

Lemma min_values_snoc (l : list (MCTSAgent Env Rng)) agent state :
  min_values ACTIONS_keys (l ++ [agent]) state
  = restrict_min (min_values ACTIONS_keys l state) agent.
Proof. unfold min_values. rewrite fold_left_app. reflexivity. Qed.

Lemma in_every_root_snoc (l : list (MCTSAgent Env Rng)) agent k :
  in_every_root (l ++ [agent]) k
  = in_every_root l k && contains (children (root (mcts agent))) k.
Proof. unfold in_every_root. rewrite forallb_app. simpl. rewrite andb_true_r. reflexivity. Qed.

(** The keys of [min_action_values] after the loop are the candidates. *)
Lemma keys_min_values (l : list (MCTSAgent Env Rng)) state :
  keys (min_values ACTIONS_keys l state) = candidates ACTIONS_keys l state.
Proof.
  unfold candidates. induction l as [|agent l IH] using rev_ind.
  - unfold min_values, keys. simpl. rewrite map_map. simpl. rewrite map_id.
    induction (ACTIONS_keys state) as [|k ks IHk]; simpl; congruence.
  - rewrite min_values_snoc, keys_restrict_min, IH, filter_and.
    apply filter_ext. intros k. symmetry. apply in_every_root_snoc.
Qed.

(** The values of [min_action_values] after the loop are the minima. *)
Lemma min_values_is_min (l : list (MCTSAgent Env Rng)) state : forall k v,
  getitem (min_values ACTIONS_keys l state) k = Some v -> is_min_value l k v.
Proof.
  induction l as [|agent l IH] using rev_ind; intros k v H.
  - unfold min_values in H. simpl in H.
    assert (v = Inf) as ->.
    { induction (ACTIONS_keys state) as [|k' ks IHk]; simpl in H; [discriminate|].
      destruct (Z.eqb k' k); [congruence | auto]. }
    split; [intros agent q Hin; inversion Hin|]. split; [reflexivity | congruence].
  - rewrite min_values_snoc, getitem_restrict_min in H.
    destruct (getitem (min_values ACTIONS_keys l state) k) as [v0|] eqn:Hv0; [|discriminate].
    destruct (getitem (children (root (mcts agent))) k) as [c|] eqn:Hc; [|discriminate].
    injection H as <-. destruct (IH k v0 Hv0) as (Hlow & Hnil & Hatt).
    split; [|split].
    + intros agent' q Hin Hq. apply elem_of_app in Hin as [Hin|Hin].
      * eapply xgeb_trans; [apply (Hlow agent' q Hin Hq) | apply py_min_le_l].
      * apply list_elem_of_singleton in Hin as ->.
        unfold root_value in Hq. rewrite Hc in Hq. injection Hq as <-.
        apply py_min_le_r.
    + intros Heq. apply app_eq_nil in Heq as [_ Heq]. discriminate.
    + intros _. unfold py_min. destruct (xltb (Fin (value c)) v0) eqn:Hlt.
      * exists agent, (value c). split; [apply elem_of_app; right; left|].
        split; [unfold root_value; rewrite Hc; reflexivity | reflexivity].
      * destruct l as [|agent0 l0].
        -- rewrite (Hnil eq_refl) in Hlt. discriminate.
        -- destruct Hatt as (agent' & q & Hin & Hq & ->); [discriminate|].
           exists agent', q. split; [apply elem_of_app; left; exact Hin | auto].
Qed.

Lemma elem_of_candidates (l : list (MCTSAgent Env Rng)) state k :
  k ∈ candidates ACTIONS_keys l state <->
  k ∈ ACTIONS_keys state /\ forall agent, agent ∈ l -> is_Some (root_value agent k).
Proof.
  unfold candidates. rewrite !list_elem_of_In, filter_In, <- !list_elem_of_In.
  unfold in_every_root. rewrite forallb_forall.
  split; intros [Hk Hall]; (split; [exact Hk|]); intros agent Hin.
  - apply list_elem_of_In, Hall in Hin. unfold root_value, contains in *.
    destruct (getitem (children (root (mcts agent))) k); [eauto | discriminate].
  - apply list_elem_of_In, Hall in Hin. unfold root_value, contains in *.
    destruct (getitem (children (root (mcts agent))) k); [reflexivity|].
    destruct Hin as [x Hx]. discriminate.
Qed.

End Robust.

(** Without candidate the call of [max] raises. *)
Lemma robust_plan_no_candidate {Env Rng : Type}
    (env_step : Env -> action -> Env * Q * bool) (snapshot : Env -> Env)
    (np_choice : Rng -> list action -> list Q -> option (action * Rng))
    (ACTIONS_keys : Env -> list action) (self : RobustMCTSAgent Env Rng) state l :
  plan_each env_step snapshot np_choice (agents self) state = Done tt l ->
  candidates ACTIONS_keys l state = [] ->
  RobustMCTSAgent_plan env_step snapshot np_choice ACTIONS_keys self state
  = Raised ValueError (mkRobust l).
Proof.
  intros Hplan Hnil. unfold RobustMCTSAgent_plan. rewrite Hplan.
  rewrite keys_min_values, Hnil. reflexivity.
Qed.

(** C7 (as stated, refuted). With [state.ACTIONS] of the single key 0 and two
    agents whose root children after planning are the actions 0, of value 0,
    and 1, of value 1, the action 1 is among the root children of every agent
    and has the greater minimum, and [plan] returns the action 0. And with two
    agents that have no root child in common, [plan] returns no action: it
    raises [ValueError]. *)
Lemma robust_plan_ignores_common_action :
  match RobustMCTSAgent_plan (two_step 1%Z) id first_choice (fun _ => [0%Z])
          two_ensemble tt with
  | Done actions self' =>
    actions = [0%Z] /\
    map (fun agent => Qred <$> root_value agent 0%Z) (agents self') = [Some 0; Some 0] /\
    map (fun agent => Qred <$> root_value agent 1%Z) (agents self') = [Some 1; Some 1]
  | Raised _ _ => False
  end /\
  match RobustMCTSAgent_plan (two_step 1%Z) id first_choice (fun _ => [0%Z; 1%Z])
          disjoint_ensemble tt with
  | Done _ _ => False
  | Raised e self' =>
    e = ValueError /\
    map (fun agent => keys (children (root (mcts agent)))) (agents self')
    = [[0%Z]; [1%Z]]
  end.
Proof. split; vm_compute; repeat split. Qed.

(** C7 (amended). Once the sub-agents have planned, [plan] considers exactly
    the keys of [state.ACTIONS] that are among the root children of every
    sub-agent, gives each the minimum of its root-child values across the
    sub-agents, and, when there is such an action, returns one that maximises
    this minimum and records it as the previous action of every sub-agent. *)
Theorem robust_plan_maximin {Env Rng : Type}
    (env_step : Env -> action -> Env * Q * bool) (snapshot : Env -> Env)
    (np_choice : Rng -> list action -> list Q -> option (action * Rng))
    (ACTIONS_keys : Env -> list action) (self : RobustMCTSAgent Env Rng) state l :
  plan_each env_step snapshot np_choice (agents self) state = Done tt l ->
  candidates ACTIONS_keys l state <> [] ->
  exists a va,
    RobustMCTSAgent_plan env_step snapshot np_choice ACTIONS_keys self state
    = Done [a] (mkRobust (map (set_previous_action a) l)) /\
    (forall agent, agent ∈ map (set_previous_action a) l -> previous_action agent = Some a) /\
    (forall k, k ∈ candidates ACTIONS_keys l state <->
               k ∈ ACTIONS_keys state /\
               forall agent, agent ∈ l -> is_Some (root_value agent k)) /\
    a ∈ candidates ACTIONS_keys l state /\
    is_min_value l a va /\
    forall k, k ∈ candidates ACTIONS_keys l state ->
      exists vk, is_min_value l k vk /\ xltb va vk = false.
Proof.
  intros Hplan Hne. unfold RobustMCTSAgent_plan. rewrite Hplan.
  set (mav := min_values ACTIONS_keys l state).
  assert (Hkeys : keys mav = candidates ACTIONS_keys l state) by apply keys_min_values.
  destruct (py_max_first xltb (fun key => item Inf mav key) xltb_trans xgeb_trans
              (keys mav)) as (a & l1 & l2 & Hmax & Heq & H1 & H2).
  { rewrite Hkeys. exact Hne. }
  rewrite Hmax.
  destruct (keys_getitem mav a) as [va Hva].
  { rewrite Heq. apply elem_of_middle. }
  rewrite (item_getitem _ _ _ _ Hva) in H1, H2.
  exists a, va. split; [reflexivity|]. split.
  { intros agent Hin. apply list_elem_of_fmap in Hin as (agent0 & -> & _). reflexivity. }
  split; [intros k; apply elem_of_candidates|].
  split; [rewrite <- Hkeys, Heq; apply elem_of_middle|].
  split; [apply (min_values_is_min ACTIONS_keys l state); exact Hva|].
  intros k Hk. rewrite <- Hkeys in Hk.
  destruct (keys_getitem mav k Hk) as [vk Hvk].
  exists vk. split; [apply (min_values_is_min ACTIONS_keys l state); exact Hvk|].
  rewrite Heq in Hk. apply elem_of_app in Hk as [Hk|Hk].
  - specialize (H1 k Hk). rewrite (item_getitem _ _ _ _ Hvk) in H1.
    apply xltb_asym. exact H1.
  - apply elem_of_cons in Hk as [->|Hk].
    + replace vk with va by congruence. apply xltb_irrefl.
    + specialize (H2 k Hk). rewrite (item_getitem _ _ _ _ Hvk) in H2. exact H2.
Qed.

Lemma robust_plan_maximin_witness :
  exists a self',
    RobustMCTSAgent_plan (two_step 1%Z) id first_choice (fun _ => [0%Z; 1%Z])
      two_ensemble tt = Done [a] self'.
Proof.
  destruct (robust_plan_maximin (two_step 1%Z) id first_choice (fun _ => [0%Z; 1%Z])
              two_ensemble tt
              (state_of (plan_each (two_step 1%Z) id first_choice (agents two_ensemble) tt)))
    as (a & va & Hplan & _).
  - vm_compute. reflexivity.
  - vm_compute. discriminate.
  - exists a. eexists. exact Hplan.
Defined.

(** On this ensemble, with both actions in [state.ACTIONS], the action 1 is
    returned. *)
Example robust_plan_sample :
  match RobustMCTSAgent_plan (two_step 1%Z) id first_choice (fun _ => [0%Z; 1%Z])
          two_ensemble tt with
  | Done actions _ => actions = [1%Z]
  | Raised _ _ => False
  end.
Proof. vm_compute. reflexivity. Qed.

(** An action that one environment does not have available is offered by the
    joint environment all the same. *)
Example joint_available_actions_sample :
  0%Z ∈ JointEnv_get_available_actions
          [ {| get_available_actions := Some [0%Z; 1%Z]; action_space_n := 3 |};
            {| get_available_actions := Some [1%Z; 2%Z]; action_space_n := 3 |} ] /\
  2%Z ∈ JointEnv_get_available_actions
          [ {| get_available_actions := Some [1%Z]; action_space_n := 3 |};
            {| get_available_actions := None; action_space_n := 3 |} ].
Proof. split; vm_compute; set_solver. Qed.

(** * Further properties *)

(** ** Node.update and Node.max_update *)

(** On a node with a non-negative count, [N] calls of [update] add [N] to
    the count and keep [count * value] equal to what it was plus the sum of
    the rewards: the value is the mean of the rewards weighted with what the
    node held before. *)
Theorem updates_running_sum (self : Node) (rewards : list Q) :
  (0 <= count self)%Z ->
  count (updates self rewards) = (count self + Z.of_nat (length rewards))%Z /\
  inject_Z (count (updates self rewards)) * value (updates self rewards)
  == inject_Z (count self) * value self + Qsum rewards.
Proof.
  intros Hc. split; [apply updates_count | apply updates_weighted; exact Hc].
Qed.

Lemma updates_running_sum_witness :
  count (updates sample_node [1; 0]) = 10%Z /\
  inject_Z (count (updates sample_node [1; 0])) * value (updates sample_node [1; 0])
  == inject_Z 8 * (1 # 2) + Qsum [1; 0].
Proof.
  apply (updates_running_sum sample_node [1; 0]). simpl. lia.
Defined.

(** On a node without visit, whatever its value (as a node is after
    [convert_visits_to_prior_in_branch]), the first [update] overwrites the
    value: after at least one call the value is the mean of the rewards
    alone. *)
Theorem updates_forget_unvisited_value (self : Node) (rewards : list Q) :
  count self = 0%Z -> rewards <> [] ->
  value (updates self rewards) == mean rewards.
Proof.
  intros Hc Hne. unfold mean.
  pose proof (updates_weighted rewards self) as Hw.
  rewrite updates_count, Hc in Hw. specialize (Hw ltac:(lia)).
  rewrite Z.add_0_l in Hw.
  assert (Hn : ~ inject_Z (Z.of_nat (length rewards)) == 0).
  { change 0 with (inject_Z 0). rewrite inject_Z_injective.
    destruct rewards; [congruence | simpl length; lia]. }
  apply (Qmult_inj_l _ _ _ Hn). rewrite Hw.
  change (inject_Z 0) with 0. field. exact Hn.
Qed.

Lemma updates_forget_unvisited_value_witness :
  value (updates (convert_visits_to_prior_in_branch sample_node (1 # 2)) [1 # 3; 1])
  == mean [1 # 3; 1].
Proof.
  apply (updates_forget_unvisited_value
           (convert_visits_to_prior_in_branch sample_node (1 # 2)) [1 # 3; 1]).
  - reflexivity.
  - discriminate.
Defined.

Lemma max_updates_cons self r rs :
  max_updates self (r :: rs) = max_updates (max_update self r) rs.
Proof. reflexivity. Qed.

Lemma max_update_value self r :
  value self <= value (max_update self r) /\ r <= value (max_update self r) /\
  (value (max_update self r) = value self \/ value (max_update self r) = r).
Proof.
  simpl. destruct (Qltb r (value self)) eqn:H.
  - apply Qltb_lt in H. repeat split; [apply Qle_refl | apply Qlt_le_weak; exact H | auto].
  - apply Qltb_ge in H. repeat split; [exact H | apply Qle_refl | auto].
Qed.

(** [N] calls of [max_update] add [N] to the count and leave as value the
    greatest of the value the node had and the rewards: it is one of them and
    none of them is above it. On a new node, of value 0, a negative reward is
    therefore never recorded. *)
Theorem max_updates_greatest (rewards : list Q) : forall self : Node,
  count (max_updates self rewards) = (count self + Z.of_nat (length rewards))%Z /\
  value self <= value (max_updates self rewards) /\
  Forall (fun r => r <= value (max_updates self rewards)) rewards /\
  value (max_updates self rewards) ∈ value self :: rewards.
Proof.
  induction rewards as [|r rs IH]; intros self.
  - simpl. repeat split; [lia | apply Qle_refl | constructor | left].
  - rewrite max_updates_cons.
    destruct (IH (max_update self r)) as (Hc & Hv & Hall & Hin).
    destruct (max_update_value self r) as (Hv1 & Hr1 & Heq).
    split; [rewrite Hc; simpl count; simpl length; lia|].
    split; [eapply Qle_trans; eassumption|].
    split; [constructor; [eapply Qle_trans; eassumption | exact Hall]|].
    apply elem_of_cons in Hin as [Hin|Hin].
    + rewrite Hin. destruct Heq as [->| ->]; [left | right; left].
    + right. right. exact Hin.
Qed.

(** ** Node.expand *)

Lemma getitem_None_keys {A} (d : list (action * A)) k :
  getitem d k = None -> k ∉ keys d.
Proof.
  intros H Hin. apply keys_getitem in Hin as [x Hx]. congruence.
Qed.

Lemma expand_at_NoDup actions probabilities self i :
  NoDup (keys (children self)) ->
  NoDup (keys (children (state_of (expand_at actions probabilities self i)))).
Proof.
  intros Hnd. unfold expand_at.
  destruct (actions !! i) as [a|]; [|exact Hnd].
  destruct (contains (children self) a) eqn:Hc; [exact Hnd|].
  destruct (probabilities !! i) as [p|]; [|exact Hnd].
  simpl. unfold keys. rewrite map_app. simpl. apply NoDup_app. split; [exact Hnd|].
  split; [|apply NoDup_singleton].
  intros k Hk Hin. apply list_elem_of_singleton in Hin as ->.
  unfold contains in Hc. destruct (getitem (children self) a) eqn:Hg; [discriminate|].
  exact (getitem_None_keys _ _ Hg Hk).
Qed.

(** [expand] keeps the children a dict: when no action has two children
    before the call, none has after it, whatever actions are given, repeated
    or not, and also when the call raises. *)
Theorem expand_keeps_keys_distinct (self : Node) (d : distribution) :
  NoDup (keys (children self)) ->
  NoDup (keys (children (state_of (expand self d)))).
Proof.
  destruct d as [actions probabilities]. unfold expand.
  generalize (seq 0 (length actions)). intros l. revert self.
  induction l as [|i l IH]; intros self Hnd; simpl; [exact Hnd|].
  pose proof (expand_at_NoDup actions probabilities self i Hnd) as H1.
  destruct (expand_at actions probabilities self i) as [[] s|e s]; simpl in *.
  - apply IH. exact H1.
  - exact H1.
Qed.

Lemma expand_keeps_keys_distinct_witness :
  NoDup (keys (children (state_of (expand sample_node ([2%Z; 5%Z; 5%Z], [1 # 2; 1 # 2]))))).
Proof.
  apply (expand_keeps_keys_distinct sample_node ([2%Z; 5%Z; 5%Z], [1 # 2; 1 # 2])).
  apply (bool_decide_unpack _). vm_compute. reflexivity.
Defined.

Lemma for_each_expand_fresh actions probabilities n : forall i self,
  length actions = (i + n)%nat ->
  (length actions <= length probabilities)%nat ->
  NoDup (drop i actions) ->
  (forall a, a ∈ drop i actions -> contains (children self) a = false) ->
  exists self',
    for_each (expand_at actions probabilities) (seq i n) self = Done tt self' /\
    children self' = children self ++ zip (drop i actions) (new_Node <$> drop i probabilities) /\
    prior self' = prior self /\ count self' = count self /\ value self' = value self.
Proof.
  induction n as [|n IH]; intros i self Hlen Hle Hnd Hfresh; simpl.
  - exists self. split; [reflexivity|]. rewrite drop_ge by lia. simpl.
    rewrite app_nil_r. auto.
  - destruct (lookup_lt_is_Some_2 actions i) as [a Ha]; [lia|].
    destruct (lookup_lt_is_Some_2 probabilities i) as [p Hp]; [lia|].
    rewrite (drop_S _ _ _ Ha) in Hnd, Hfresh |- *. rewrite (drop_S _ _ _ Hp).
    apply NoDup_cons in Hnd as [Hnotin Hnd].
    unfold expand_at at 1. rewrite Ha, (Hfresh a ltac:(left)), Hp.
    destruct (IH (S i) (add_child self a (new_Node p))) as (self' & Hrun & Hch & Hf);
      [lia | exact Hle | exact Hnd | |].
    + intros a' Hin. simpl. rewrite contains_app, (Hfresh a' ltac:(right; exact Hin)).
      unfold contains. simpl. destruct (Z.eqb_spec a a') as [->|Hne]; [contradiction | reflexivity].
    + exists self'. split; [exact Hrun|]. split; [|exact Hf].
      rewrite Hch. simpl. rewrite <- app_assoc. reflexivity.
Qed.

Lemma expand_fresh_children (self : Node) (actions : list action) (probabilities : list Q) :
  children self = [] -> NoDup actions ->
  (length actions <= length probabilities)%nat ->
  exists self',
    expand self (actions, probabilities) = Done tt self' /\
    children self' = zip actions (new_Node <$> probabilities) /\
    prior self' = prior self /\ count self' = count self /\ value self' = value self.
Proof.
  intros Hleaf Hnd Hle. unfold expand.
  destruct (for_each_expand_fresh actions probabilities (length actions) 0 self)
    as (self' & Hrun & Hch & Hf); [reflexivity | exact Hle | exact Hnd | |].
  - intros a _. rewrite Hleaf. reflexivity.
  - exists self'. split; [exact Hrun|]. split; [|exact Hf].
    rewrite Hch, Hleaf. reflexivity.
Qed.

(** On a node without children, as the leaf that [run] expands, with actions
    that are all different and a probability for each, [expand] returns and
    the children are the actions in the order given, each a new node (no
    visit, value 0) with the probability of its index as prior; probabilities
    beyond the last action are ignored. *)
Theorem expand_leaf (self : Node) (actions : list action) (probabilities : list Q) :
  children self = [] -> NoDup actions ->
  (length actions <= length probabilities)%nat ->
  exists self',
    expand self (actions, probabilities) = Done tt self' /\
    children self' = zip actions (new_Node <$> probabilities) /\
    prior self' = prior self /\ count self' = count self /\ value self' = value self.
Proof. apply expand_fresh_children. Qed.

Lemma expand_leaf_witness :
  exists self',
    expand root_Node ([3%Z; 1%Z], [1 # 4; 3 # 4; 1]) = Done tt self' /\
    children self' = [(3%Z, new_Node (1 # 4)); (1%Z, new_Node (3 # 4))].
Proof.
  destruct (expand_leaf root_Node [3%Z; 1%Z] [1 # 4; 3 # 4; 1]) as (self' & Hrun & Hch & _).
  - reflexivity.
  - apply (bool_decide_unpack _). vm_compute. reflexivity.
  - simpl. lia.
  - exists self'. split; [exact Hrun | exact Hch].
Defined.

(** ** The built-in policies of MCTSAgent *)

Lemma Qsum_replicate n q : Qsum (replicate n q) == inject_Z (Z.of_nat n) * q.
Proof.
  induction n as [|n IH].
  - simpl. ring.
  - change (Qsum (replicate (S n) q)) with (q + Qsum (replicate n q)).
    rewrite IH, Nat2Z.inj_succ. unfold Z.succ. rewrite inject_Z_plus.
    change (inject_Z 1) with 1. ring.
Qed.

Lemma inject_nat_pos n : (0 < n)%nat -> 0 < inject_Z (Z.of_nat n).
Proof. intros H. change 0 with (inject_Z 0). rewrite <- Zlt_Qlt. lia. Qed.

(** The probabilities [np.ones(n) / n] of a uniform policy, for [n > 0]: all
    equal to [1/n], of sum 1, none negative. *)
Lemma ones_over_uniform n :
  (0 < n)%nat ->
  let ps := ones_over n (inject_Z (Z.of_nat n)) in
  length ps = n /\
  Forall (fun p => p == 1 / inject_Z (Z.of_nat n)) ps /\
  Qsum ps == 1 /\
  existsb (fun p => Qltb p 0) ps = false /\
  Qeq_bool (Qsum ps) 1 = true.
Proof.
  intros Hn ps. pose proof (inject_nat_pos n Hn) as Hpos.
  assert (Hsum : Qsum ps == 1).
  { unfold ps, ones_over. rewrite Qsum_replicate. field. lra. }
  split; [apply length_replicate|]. split; [|split; [exact Hsum|split]].
  - apply Forall_forall. intros p Hp. apply elem_of_replicate in Hp as [-> _]. reflexivity.
  - apply not_true_iff_false. rewrite existsb_exists. intros (p & Hp & Hlt).
    apply list_elem_of_In, elem_of_replicate in Hp as [-> _]. apply Qltb_lt in Hlt.
    assert (0 < 1 / inject_Z (Z.of_nat n)) by (apply Qlt_shift_div_l; lra). lra.
  - apply Qeq_bool_iff. exact Hsum.
Qed.

(** [random_policy] on a state with [n > 0] actions: the actions are
    [0 .. n-1], with as many probabilities, all equal to [1/n], of sum 1; the
    output is well-formed. With [n <= 0] there is no action and no
    probability. *)
Theorem random_policy_uniform (state : SubEnv) :
  ((0 < action_space_n state)%Z ->
   fst (random_policy state) = seqZ 0 (action_space_n state) /\
   length (fst (random_policy state)) = Z.to_nat (action_space_n state) /\
   length (snd (random_policy state)) = Z.to_nat (action_space_n state) /\
   Forall (fun p => p == 1 / inject_Z (action_space_n state)) (snd (random_policy state)) /\
   Qsum (snd (random_policy state)) == 1 /\
   malformed (random_policy state) = false) /\
  ((action_space_n state <= 0)%Z -> random_policy state = ([], [])).
Proof.
  unfold random_policy. split.
  - intros Hn. cbv zeta. cbn [fst snd]. unfold malformed, action. cbn [fst snd].
    assert (Hl : length (seqZ 0 (action_space_n state)) = Z.to_nat (action_space_n state))
      by apply length_seqZ.
    rewrite !Hl.
    destruct (ones_over_uniform (Z.to_nat (action_space_n state)) ltac:(lia))
      as (Hlen & Hall & Hsum & Hneg & Hone).
    split; [reflexivity|]. split; [reflexivity|]. split; [exact Hlen|].
    split; [|split; [exact Hsum|]].
    + eapply Forall_impl; [exact Hall|]. intros p Hp. simpl in Hp.
      rewrite Hp, Z2Nat.id by lia. reflexivity.
    + rewrite Hlen, Nat.eqb_refl, Hneg, Hone. reflexivity.
  - intros Hn. rewrite (seqZ_nil 0 (action_space_n state)) by lia. reflexivity.
Qed.

Lemma random_policy_uniform_witness :
  fst (random_policy {| get_available_actions := None; action_space_n := 5 |})
  = [0; 1; 2; 3; 4]%Z /\
  Qsum (snd (random_policy {| get_available_actions := None; action_space_n := 5 |})) == 1.
Proof.
  destruct (random_policy_uniform {| get_available_actions := None; action_space_n := 5 |})
    as [H _].
  destruct H as (Hf & _ & _ & _ & Hs & _); [simpl; lia|].
  split; [exact Hf | exact Hs].
Defined.

(** [random_available_policy]: the actions are the available ones (all the
    actions [0 .. n-1] when the state has no availability query, and the output
    is then that of [random_policy]); when there is one at least, the
    probabilities are all one over their number, of sum 1, and the output is
    well-formed. *)
Theorem random_available_policy_uniform (state : SubEnv) :
  fst (random_available_policy state) = available_or_all state /\
  (get_available_actions state = None ->
   random_available_policy state = random_policy state) /\
  (available_or_all state <> [] ->
   Forall (fun p => p == 1 / inject_Z (Z.of_nat (length (available_or_all state))))
          (snd (random_available_policy state)) /\
   Qsum (snd (random_available_policy state)) == 1 /\
   malformed (random_available_policy state) = false).
Proof.
  unfold random_available_policy. split; [reflexivity|]. split.
  - intros Hnone. unfold random_policy, available_or_all. rewrite Hnone. reflexivity.
  - intros Hne. simpl snd.
    destruct (ones_over_uniform (length (available_or_all state)))
      as (Hlen & Hall & Hsum & Hneg & Hone).
    { destruct (available_or_all state); [congruence | simpl; lia]. }
    split; [exact Hall|]. split; [exact Hsum|].
    unfold malformed. simpl fst. simpl snd.
    rewrite Hlen, Nat.eqb_refl, Hneg, Hone. reflexivity.
Qed.

Lemma random_available_policy_uniform_witness :
  Qsum (snd (random_available_policy
               {| get_available_actions := Some [1; 4]%Z; action_space_n := 5 |})) == 1.
Proof.
  destruct (random_available_policy_uniform
              {| get_available_actions := Some [1; 4]%Z; action_space_n := 5 |})
    as (_ & _ & H).
  destruct H as (_ & Hs & _); [discriminate | exact Hs].
Defined.

Lemma first_index_Some l x : forall from i,
  first_index l x from = Some i ->
  (from <= i)%nat /\ l !! (i - from)%nat = Some x /\
  forall j, (j < i - from)%nat -> l !! j <> Some x.
Proof.
  induction l as [|y l IH]; intros from i H; simpl in H; [discriminate|].
  destruct (Z.eqb_spec y x) as [->|Hne].
  - injection H as <-. rewrite Nat.sub_diag. split; [lia|]. split; [reflexivity|].
    intros j Hj. lia.
  - apply IH in H as (Hle & Hi & Hfirst). split; [lia|].
    replace (i - from)%nat with (S (i - S from)) by lia. split; [exact Hi|].
    intros [|j] Hj; simpl; [congruence|]. apply Hfirst. lia.
Qed.

Lemma first_index_None l x : forall from, first_index l x from = None -> x ∉ l.
Proof.
  induction l as [|y l IH]; intros from H Hin; simpl in H; [inversion Hin|].
  destruct (Z.eqb_spec y x) as [->|Hne]; [discriminate|].
  apply elem_of_cons in Hin as [->|Hin]; [congruence|]. exact (IH _ H Hin).
Qed.

Lemma Qsum_alter (f : Q -> Q) l : forall i x,
  l !! i = Some x -> Qsum (alter f i l) == Qsum l - x + f x.
Proof.
  induction l as [|y l IH]; intros i x H; [discriminate|].
  destruct i as [|i]; simpl in H.
  - injection H as ->. simpl. ring.
  - change (Qsum (alter f (S i) (y :: l))) with (y + Qsum (alter f i l)).
    rewrite (IH i x H). simpl. ring.
Qed.

(** [preference_policy(state, action_index, ratio)] with a positive ratio.
    When the preferred action is available, the actions are the available
    ones, there is a probability for each, the probability at the first index
    [i] of the preferred action is [ratio] times the probability
    [1 / (n - 1 + ratio)] that every other index has, and the sum is 1. When it
    is not available, the output is that of [random_available_policy]. *)
Theorem preference_policy_spec (state : SubEnv) (action_index : action) (ratio : Q) :
  (action_index ∉ available_or_all state ->
   preference_policy state action_index ratio = random_available_policy state) /\
  (action_index ∈ available_or_all state -> 0 < ratio ->
   exists i,
     available_or_all state !! i = Some action_index /\
     (forall j, (j < i)%nat -> available_or_all state !! j <> Some action_index) /\
     fst (preference_policy state action_index ratio) = available_or_all state /\
     length (snd (preference_policy state action_index ratio))
     = length (available_or_all state) /\
     snd (preference_policy state action_index ratio) !! i
     = Some (1 / (inject_Z (Z.of_nat (length (available_or_all state))) - 1 + ratio) * ratio) /\
     (forall j, j <> i -> (j < length (available_or_all state))%nat ->
        snd (preference_policy state action_index ratio) !! j
        = Some (1 / (inject_Z (Z.of_nat (length (available_or_all state))) - 1 + ratio))) /\
     Qsum (snd (preference_policy state action_index ratio)) == 1).
Proof.
  unfold preference_policy. set (available := available_or_all state).
  destruct (first_index available action_index 0) as [i|] eqn:Hidx.
  - split.
    + intros Hnotin. apply first_index_Some in Hidx as (_ & Hi & _).
      exfalso. apply Hnotin. eapply list_elem_of_lookup_2. exact Hi.
    + intros _ Hratio. apply first_index_Some in Hidx as (_ & Hi & Hfirst).
      rewrite Nat.sub_0_r in Hi, Hfirst.
      assert (Hlt : (i < length available)%nat) by (eapply lookup_lt_Some; exact Hi).
      set (u := 1 / (inject_Z (Z.of_nat (length available)) - 1 + ratio)).
      assert (Hu : ones_over (length available)
                     (inject_Z (Z.of_nat (length available)) - 1 + ratio) !! i = Some u)
        by (apply lookup_replicate_2; exact Hlt).
      exists i. cbn [fst snd].
      split; [exact Hi|]. split; [exact Hfirst|]. split; [reflexivity|].
      split; [rewrite length_alter; apply length_replicate|].
      split; [rewrite list_lookup_alter_eq, Hu; reflexivity|]. split.
      * intros j Hj Hjlt. rewrite list_lookup_alter_ne by congruence.
        apply lookup_replicate_2. exact Hjlt.
      * rewrite (Qsum_alter _ _ _ _ Hu). unfold ones_over. rewrite Qsum_replicate.
        fold u. unfold u.
        pose proof (inject_nat_pos (length available) ltac:(lia)) as Hpos.
        assert (H1 : 1 <= inject_Z (Z.of_nat (length available))).
        { change 1 with (inject_Z 1). rewrite <- Zle_Qle. lia. }
        field. lra.
  - split; [reflexivity|].
    intros Hin. exfalso. exact (first_index_None _ _ _ Hidx Hin).
Qed.

Lemma preference_policy_spec_witness :
  exists i,
    [0; 1; 3; 4]%Z !! i = Some 3%Z /\
    Qsum (snd (fast_policy {| get_available_actions := Some [0; 1; 3; 4]%Z;
                              action_space_n := 5 |})) == 1.
Proof.
  destruct (preference_policy_spec
              {| get_available_actions := Some [0; 1; 3; 4]%Z; action_space_n := 5 |} 3%Z 2)
    as [_ H].
  destruct H as (i & Hi & _ & _ & _ & _ & _ & Hs).
  - simpl. set_solver.
  - reflexivity.
  - exists i. split; [exact Hi | exact Hs].
Defined.

(** On its preferred action 3 among the available [0, 1, 3, 4],
    [fast_policy] gives 2/5 to the action 3 and 1/5 to each other. *)
Example fast_policy_sample :
  map Qred (snd (fast_policy {| get_available_actions := Some [0; 1; 3; 4]%Z;
                                action_space_n := 5 |}))
  = [1 # 5; 1 # 5; 2 # 5; 1 # 5].
Proof. reflexivity. Qed.

Lemma zip_replicate_length {A B} (l : list A) (x : B) :
  zip l (replicate (length l) x) = map (fun a => (a, x)) l.
Proof. induction l as [|a l IH]; simpl; [reflexivity|]. f_equal. exact IH. Qed.

(** Expanding a new node with the output of [random_policy] on a state with
    [n > 0] actions gives it the children [0 .. n-1], in this order, each a new
    node with the prior [np.ones(n)/n]. *)
Theorem expand_random_policy (state : SubEnv) (p : Q) :
  (0 < action_space_n state)%Z ->
  exists self',
    expand (new_Node p) (random_policy state) = Done tt self' /\
    children self'
    = map (fun a => (a, new_Node (1 / inject_Z (Z.of_nat (Z.to_nat (action_space_n state))))))
          (seqZ 0 (action_space_n state)) /\
    prior self' = p /\ count self' = 0%Z /\ value self' = 0.
Proof.
  intros Hn.
  assert (Hl : length (seqZ 0 (action_space_n state)) = Z.to_nat (action_space_n state))
    by apply length_seqZ.
  destruct (expand_fresh_children (new_Node p) (seqZ 0 (action_space_n state))
              (ones_over (Z.to_nat (action_space_n state))
                 (inject_Z (Z.of_nat (Z.to_nat (action_space_n state))))))
    as (self' & Hrun & Hch & Hp & Hc & Hv).
  - reflexivity.
  - apply NoDup_seqZ.
  - unfold ones_over. rewrite length_replicate. apply Nat.eq_le_incl. exact Hl.
  - exists self'. split; [|split; [|auto]].
    + unfold random_policy, action. cbv zeta. rewrite Hl. exact Hrun.
    + rewrite Hch. unfold ones_over. rewrite fmap_replicate, <- Hl.
      apply zip_replicate_length.
Qed.

Lemma expand_random_policy_witness :
  exists self',
    expand (new_Node 1) (random_policy {| get_available_actions := None; action_space_n := 2 |})
    = Done tt self' /\
    children self' = [(0%Z, new_Node (1 / 2)); (1%Z, new_Node (1 / 2))].
Proof.
  destruct (expand_random_policy {| get_available_actions := None; action_space_n := 2 |} 1)
    as (self' & Hrun & Hch & _); [simpl; lia|].
  exists self'. split; [exact Hrun | exact Hch].
Defined.

(** ** JointEnv.step *)

(** [JointEnv.step] with no environment raises [ValueError]. With at least
    one, it returns one observation, reward, terminal flag and info per
    environment, the [i]-th of each being those of the step of the [i]-th
    environment with the action, and every environment is left in the state
    after its step. *)
Theorem JointEnv_step_transposes {Env Obs Info : Type}
    (step : Env -> action -> Env * (Obs * Q * bool * Info))
    (joint_state : list Env) (a : action) :
  (joint_state = [] -> JointEnv_step step joint_state a = Raised ValueError []) /\
  (joint_state <> [] ->
   exists observations rewards terminals infos joint_state',
     JointEnv_step step joint_state a
     = Done (observations, rewards, terminals, infos) joint_state' /\
     length observations = length joint_state /\
     length rewards = length joint_state /\
     length terminals = length joint_state /\
     length infos = length joint_state /\
     length joint_state' = length joint_state /\
     forall i state, joint_state !! i = Some state ->
       joint_state' !! i = Some (fst (step state a)) /\
       observations !! i = Some (fst (fst (fst (snd (step state a))))) /\
       rewards !! i = Some (snd (fst (fst (snd (step state a))))) /\
       terminals !! i = Some (snd (fst (snd (step state a)))) /\
       infos !! i = Some (snd (snd (step state a)))).
Proof.
  split.
  - intros ->. reflexivity.
  - intros Hne. unfold JointEnv_step.
    destruct (map snd (map (fun state => step state a) joint_state)) as [|t ts] eqn:Ht.
    { destruct joint_state; [congruence | discriminate]. }
    rewrite <- Ht. clear Ht t ts.
    do 5 eexists. split; [reflexivity|].
    rewrite !length_map. repeat split; try reflexivity.
    all: rewrite ?map_map, list_lookup_fmap, H; reflexivity.
Qed.

Lemma JointEnv_step_transposes_witness :
  exists observations rewards terminals infos joint_state',
    JointEnv_step (fun (s : Z) (a : action) => ((s + a)%Z, (s, inject_Z s, Z.eqb s a, tt)))
                  [1%Z; 2%Z] 2%Z
    = Done (observations, rewards, terminals, infos) joint_state' /\
    rewards !! 1%nat = Some (inject_Z 2) /\ terminals !! 1%nat = Some true.
Proof.
  destruct (JointEnv_step_transposes
              (fun (s : Z) (a : action) => ((s + a)%Z, (s, inject_Z s, Z.eqb s a, tt)))
              [1%Z; 2%Z] 2%Z) as [_ H].
  destruct H as (o & r & t & i & j & Hrun & _ & _ & _ & _ & _ & Hi); [discriminate|].
  destruct (Hi 1%nat 2%Z eq_refl) as (_ & _ & Hr & Ht & _).
  exists o, r, t, i, j. split; [exact Hrun|]. split; [exact Hr | exact Ht].
Defined.

(** ** agent_factory: the path of the agent class *)

Lemma split_on_absent sep s : absent sep s = true -> split_on sep s = [s].
Proof.
  induction s as [|c s IH]; simpl; [reflexivity|].
  intros H. apply andb_true_iff in H as [Hc Hs]. apply negb_true_iff in Hc.
  rewrite Hc, (IH Hs). reflexivity.
Qed.

Lemma split_on_app sep s t :
  absent sep s = true ->
  split_on sep (s ++ String sep t)%string = s :: split_on sep t.
Proof.
  induction s as [|c s IH]; simpl.
  - intros _. rewrite Ascii.eqb_refl. reflexivity.
  - intros H. apply andb_true_iff in H as [Hc Hs]. apply negb_true_iff in Hc.
    rewrite Hc, (IH Hs). reflexivity.
Qed.

Lemma rsplit_once_absent sep s : absent sep s = true -> rsplit_once sep s = None.
Proof.
  induction s as [|c s IH]; simpl; [reflexivity|].
  intros H. apply andb_true_iff in H as [Hc Hs]. apply negb_true_iff in Hc.
  rewrite (IH Hs), Hc. reflexivity.
Qed.

Lemma rsplit_once_app sep s t :
  absent sep t = true ->
  rsplit_once sep (s ++ String sep t)%string = Some (s, t).
Proof.
  intros Ht. induction s as [|c s IH]; simpl.
  - rewrite (rsplit_once_absent _ _ Ht), Ascii.eqb_refl. reflexivity.
  - rewrite IH. reflexivity.
Qed.

Lemma string_app_assoc (s t u : string) : ((s ++ t) ++ u = s ++ (t ++ u))%string.
Proof.
  induction s as [|c s IH]; [reflexivity|].
  change (String c ((s ++ t) ++ u) = String c (s ++ (t ++ u)))%string.
  f_equal. exact IH.
Qed.

Lemma absent_app c s t : absent c (s ++ t)%string = absent c s && absent c t.
Proof.
  induction s as [|c' s IH]; simpl; [reflexivity|]. rewrite IH. apply andb_assoc.
Qed.

(** [agent_factory] finds back the module and the class of a configuration
    that holds the [repr] of a class: for a module path without quote and
    a class name without quote nor dot, the names it imports from
    [<class 'module.Class'>] are [module] and [Class] (the module path may
    itself hold dots). Without ['__class__'] it raises its [ValueError];
    a string without quote raises [IndexError], and a quoted path without
    dot the [ValueError] of the unpacking. *)
Theorem agent_class_path_repr (module_name class_name : string) :
  (absent "'"%char module_name = true ->
   absent "'"%char class_name = true -> absent "."%char class_name = true ->
   agent_class_path (Some (class_repr module_name class_name))
   = inr (module_name, class_name)) /\
  agent_class_path None = inl MissingClass /\
  (forall s, absent "'"%char s = true -> agent_class_path (Some s) = inl NoQuotedPath) /\
  (forall s, absent "'"%char s = true -> absent "."%char s = true ->
     agent_class_path (Some ("'" ++ s ++ "'")%string) = inl NoModule).
Proof.
  split; [|split; [reflexivity|split]].
  - intros Hm Hc Hd. unfold agent_class_path, class_repr.
    change ("<class '" ++ module_name ++ "." ++ class_name ++ "'>")%string
      with ("<class " ++ String "'"%char (module_name ++ "." ++ class_name ++ "'>"))%string.
    rewrite split_on_app by reflexivity.
    replace (module_name ++ "." ++ class_name ++ "'>")%string
      with ((module_name ++ "." ++ class_name) ++ String "'"%char ">")%string.
    2:{ rewrite !string_app_assoc. reflexivity. }
    rewrite split_on_app.
    2:{ rewrite !absent_app, Hm, Hc. reflexivity. }
    simpl lookup. cbv beta iota.
    change (module_name ++ "." ++ class_name)%string
      with (module_name ++ String "."%char class_name)%string.
    rewrite rsplit_once_app by exact Hd. reflexivity.
  - intros s Hs. unfold agent_class_path. rewrite split_on_absent by exact Hs. reflexivity.
  - intros s Hs Hd. unfold agent_class_path.
    change ("'" ++ s ++ "'")%string with ("" ++ String "'"%char (s ++ String "'"%char ""))%string.
    rewrite split_on_app by reflexivity. rewrite split_on_app by exact Hs.
    simpl lookup. cbv beta iota. rewrite rsplit_once_absent by exact Hd. reflexivity.
Qed.

Lemma agent_class_path_repr_witness :
  agent_class_path (Some "<class 'rl_agents.agents.tree_search.mcts.MCTSAgent'>"%string)
  = inr ("rl_agents.agents.tree_search.mcts"%string, "MCTSAgent"%string).
Proof.
  destruct (agent_class_path_repr "rl_agents.agents.tree_search.mcts" "MCTSAgent") as [H _].
  apply H; reflexivity.
Defined.

(** ** Node.convert_visits_to_prior_in_branch and MCTS.step_by_prior *)

Lemma convert_keys self reg :
  keys (children (convert_visits_to_prior_in_branch self reg)) = keys (children self).
Proof.
  rewrite convert_children. unfold keys. rewrite map_map. reflexivity.
Qed.

Lemma convert_node_at pos : forall self reg,
  match node_at self pos with
  | None => node_at (convert_visits_to_prior_in_branch self reg) pos = None
  | Some n =>
    exists n', node_at (convert_visits_to_prior_in_branch self reg) pos = Some n' /\
               count n' = 0%Z /\ value n' = value n /\
               keys (children n') = keys (children n)
  end.
Proof.
  induction pos as [|i pos IH]; intros self reg.
  - simpl. eexists. split; [reflexivity|].
    destruct (convert_fields self reg) as (_ & Hc & Hv).
    split; [exact Hc|]. split; [exact Hv | apply convert_keys].
  - simpl. rewrite convert_children, list_lookup_fmap.
    destruct (children self !! i) as [[k x]|]; simpl; [|reflexivity].
    specialize (IH x (1 # 2)).
    destruct pos as [|j pos].
    + simpl in *. destruct IH as (n' & [= <-] & Hc & Hv & Hk).
      eexists. split; [reflexivity|]. simpl. auto.
    + rewrite node_at_set_prior. exact IH.
Qed.

(** The conversion keeps the shape of the subtree and the values: at every
    position there is a node after it exactly when there was one before, with
    the same value and the same actions, and with its visit count reset
    to 0. *)
Theorem convert_keeps_values (self : Node) (reg : Q) (pos : list nat) :
  (node_at self pos = None ->
   node_at (convert_visits_to_prior_in_branch self reg) pos = None) /\
  (forall n, node_at self pos = Some n ->
   exists n', node_at (convert_visits_to_prior_in_branch self reg) pos = Some n' /\
              count n' = 0%Z /\ value n' = value n /\
              keys (children n') = keys (children n)).
Proof.
  pose proof (convert_node_at pos self reg) as H. split.
  - intros Hnone. rewrite Hnone in H. exact H.
  - intros n Hn. rewrite Hn in H. exact H.
Qed.

Lemma convert_keeps_values_witness :
  exists n', node_at (convert_visits_to_prior_in_branch deep_node 1) [0%nat; 0%nat] = Some n' /\
             count n' = 0%Z /\ value n' = 0.
Proof.
  destruct (convert_keeps_values deep_node 1 [0%nat; 0%nat]) as [_ H].
  destruct (H _ eq_refl) as (n' & Hn & Hc & Hv & _).
  exists n'. split; [exact Hn|]. split; [exact Hc | exact Hv].
Defined.

Lemma Zsum_pos (l : list Z) : Forall (fun z => 0 < z)%Z l -> l <> [] -> (0 < Zsum l)%Z.
Proof.
  intros Hall Hne. destruct l as [|z l]; [congruence|].
  inversion Hall as [|? ? Hz Hrest]; subst. simpl.
  assert (0 <= Zsum l)%Z; [|lia].
  clear -Hrest. induction l as [|y l IH]; simpl; [lia|].
  inversion Hrest; subst. specialize (IH ltac:(assumption)). lia.
Qed.

Lemma Qsum_affine (a t b : Q) (l : list Z) :
  ~ t == 0 ->
  Qsum (map (fun z => a * inject_Z z / t + b) l)
  == a * inject_Z (Zsum l) / t + inject_Z (Z.of_nat (length l)) * b.
Proof.
  intros Ht. induction l as [|z l IH].
  - simpl. field. exact Ht.
  - change (Qsum (map (fun z => a * inject_Z z / t + b) (z :: l)))
      with (a * inject_Z z / t + b + Qsum (map (fun z => a * inject_Z z / t + b) l)).
    rewrite IH. simpl Zsum. simpl length. rewrite Nat2Z.inj_succ. unfold Z.succ.
    rewrite !inject_Z_plus. change (inject_Z 1) with 1. field. exact Ht.
Qed.

(** The priors that the conversion gives to the children of a node sum to
    twice the regularization, whatever the visit counts (none negative): with
    the default 0.5, the one [step_by_prior] uses, they sum to 1, and with any
    other value they are not a probability distribution. *)
Theorem convert_priors_sum (self : Node) (reg : Q) :
  children self <> [] ->
  Forall (fun kc => (0 <= count (snd kc))%Z) (children self) ->
  Qsum (child_priors (convert_visits_to_prior_in_branch self reg)) == 2 * reg.
Proof.
  intros Hne Hcounts. unfold child_priors. rewrite convert_children, map_map. simpl.
  set (T := Zsum (map (fun kc => (count (snd kc) + 1)%Z) (children self))).
  set (n := length (children self)).
  assert (HT : (0 < T)%Z).
  { apply Zsum_pos.
    - apply Forall_map. eapply Forall_impl; [exact Hcounts|]. simpl. intros; lia.
    - destruct (children self); [congruence | discriminate]. }
  assert (Hn : (0 < n)%nat) by (subst n; destruct (children self); [congruence | simpl; lia]).
  assert (HTq : ~ inject_Z T == 0).
  { change 0 with (inject_Z 0). rewrite inject_Z_injective. lia. }
  transitivity (Qsum (map (fun z => reg * inject_Z z / inject_Z T + reg / inject_Z (Z.of_nat n))
                          (map (fun kc => (count (snd kc) + 1)%Z) (children self)))).
  { rewrite map_map. reflexivity. }
  rewrite Qsum_affine by exact HTq. fold T. rewrite length_map. fold n.
  pose proof (inject_nat_pos n Hn). field. split; [lra | exact HTq].
Qed.

Lemma convert_priors_sum_witness :
  Qsum (child_priors (convert_visits_to_prior_in_branch sample_node (1 # 2))) == 2 * (1 # 2).
Proof.
  apply (convert_priors_sum sample_node (1 # 2)).
  - discriminate.
  - simpl. repeat constructor; simpl; lia.
Defined.

(** [step_by_prior] on an explored action: the new root is the child of this
    action with every visit count of its subtree reset to 0 and every value
    kept; on any other action (or none) the tree is a single new node. *)
Theorem step_by_prior_resets {Env Rng : Type} (m : MCTS Env Rng) (a : option action) :
  (forall k child, a = Some k -> getitem (children (root m)) k = Some child ->
     root (step_by_prior m a) = convert_visits_to_prior_in_branch child (1 # 2) /\
     forall pos n, node_at child pos = Some n ->
       exists n', node_at (root (step_by_prior m a)) pos = Some n' /\
                  count n' = 0%Z /\ value n' = value n) /\
  ((forall k, a = Some k -> getitem (children (root m)) k = None) ->
   root (step_by_prior m a) = {| prior := 1; count := 0; value := 0; children := [] |}).
Proof.
  unfold step_by_prior, step_by_subtree, step_by_reset. split.
  - intros k child -> Hchild. rewrite Hchild. simpl. split; [reflexivity|].
    intros pos n Hn.
    pose proof (convert_node_at pos child (1 # 2)) as H. rewrite Hn in H.
    destruct H as (n' & Hn' & Hc & Hv & _). eauto.
  - intros Hnone. destruct a as [k|]; [rewrite (Hnone k eq_refl)|]; reflexivity.
Qed.

(** ** Node.select_action, MCTS.get_plan and the reuse of the tree *)

(** The action that [select_action] returns has a child, at every
    temperature: [node.children[action]] in [run] and [get_plan] never fails;
    and it returns [None] on the nodes without children only. *)
Theorem select_action_has_child (self : Node) (tau : Q) :
  (forall a, select_action self tau = Some a ->
     a ∈ keys (children self) /\ exists child, getitem (children self) a = Some child) /\
  (select_action self tau = None <-> children self = []).
Proof.
  split.
  - intros a H. destruct (select_action_children self tau a H) as [child Hc].
    split; [eapply getitem_Some_keys; exact Hc | eauto].
  - split.
    + intros H. destruct (children self) as [|kc d] eqn:Hd; [reflexivity|].
      destruct (select_action_Some self tau) as [a Ha]; [rewrite Hd; discriminate|].
      congruence.
    + apply select_action_leaf.
Qed.

(** The reuse of the tree continues the plan: when the plan of a tree starts
    with the action [a], the plan of the tree after [step(a)] is the rest of
    it; and after the step for an action that is not a child of the root (or
    for no action), the plan is empty until the next search. *)
Theorem step_continues_plan {Env Rng : Type} (m : MCTS Env Rng) :
  (forall a rest, get_plan m = a :: rest -> get_plan (step m (Some a)) = rest) /\
  (forall a, getitem (children (root m)) a = None -> get_plan (step m (Some a)) = []) /\
  get_plan (step m None) = [].
Proof.
  unfold get_plan, step, step_by_subtree, step_by_reset. split; [|split].
  - intros a rest H. rewrite get_plan_from_unfold in H.
    destruct (select_action (root m) 0) as [a'|] eqn:Hsel; [|discriminate].
    injection H as -> Hrest.
    destruct (select_action_children _ _ _ Hsel) as [child Hchild].
    rewrite Hchild in Hrest |- *. exact Hrest.
  - intros a ->. reflexivity.
  - reflexivity.
Qed.

(** ** MCTS.run and MCTS.plan *)

Lemma split_at_Some d k : forall l x r,
  split_at d k = Some (l, x, r) -> d = l ++ (k, x) :: r /\ getitem d k = Some x.
Proof.
  induction d as [|[k' y] d IH]; intros l x r H; simpl in H; [discriminate|].
  simpl. destruct (Z.eqb_spec k' k) as [->|Hne].
  - injection H as <- <- <-. auto.
  - destruct (split_at d k) as [[[l' x'] r']|]; [|discriminate].
    injection H as <- <- <-. destruct (IH l' x' r' eq_refl) as [-> Hg].
    split; [reflexivity | exact Hg].
Qed.

Lemma getitem_split_at d k x :
  getitem d k = Some x -> exists l r, split_at d k = Some (l, x, r).
Proof.
  induction d as [|[k' y] d IH]; simpl; [discriminate|].
  destruct (Z.eqb k' k); [intros [= ->]; eauto|].
  intros H. destruct (IH H) as (l & r & ->). eauto.
Qed.

Lemma down_Some self a child :
  down self a = Some child ->
  root_of child = root_of self /\
  length (trail child) = S (length (trail self)) /\
  getitem (children (focus self)) a = Some (focus child).
Proof.
  unfold down. destruct (split_at (children (focus self)) a) as [[[l x] r]|] eqn:Hs;
    [|discriminate].
  intros [= <-]. apply split_at_Some in Hs as [Hd Hg].
  split; [|split; [reflexivity | exact Hg]].
  unfold root_of. simpl. f_equal. unfold plug. simpl. rewrite <- Hd.
  destruct (focus self); reflexivity.
Qed.

Lemma down_is_Some self a x :
  getitem (children (focus self)) a = Some x -> exists child, down self a = Some child.
Proof.
  intros H. unfold down. destruct (getitem_split_at _ _ _ H) as (l & r & ->). eauto.
Qed.

Lemma root_from_count up : forall n1 n2,
  count n1 = count n2 -> count (root_from n1 up) = count (root_from n2 up).
Proof.
  induction up as [|c up IH]; intros n1 n2 H; simpl; [exact H|]. apply IH. reflexivity.
Qed.

Lemma update_branch_from_count up : forall self r,
  count (update_branch_from self up r) = (count (root_from self up) + 1)%Z.
Proof.
  induction up as [|c up IH]; intros self r; simpl; [reflexivity|].
  rewrite IH. f_equal. apply root_from_count. reflexivity.
Qed.

Section Search.
Context {Env Rng : Type}.
Variable env_step : Env -> action -> Env * Q * bool.
Variable snapshot : Env -> Env.
Variable np_choice : Rng -> list action -> list Q -> option (action * Rng).

Lemma select_loop_invariant tau depth : forall node state total terminal,
  let '(node', _, _, depth', terminal') :=
    select_loop env_step tau node state total depth terminal in
  root_of node' = root_of node /\
  (length (trail node') + depth' = length (trail node) + depth)%nat /\
  (depth' = 0%nat \/ children (focus node') = [] \/ terminal' = true).
Proof.
  induction depth as [|depth IH]; intros node state total terminal.
  - simpl. auto.
  - simpl. destruct (children (focus node)) as [|kc d] eqn:Hch; [auto|].
    destruct terminal; [auto|].
    destruct (select_action_Some (focus node) tau) as [a Ha]; [rewrite Hch; discriminate|].
    rewrite Ha. destruct (env_step state a) as [[state' reward] terminal'].
    destruct (select_action_children _ _ _ Ha) as [x Hx].
    destruct (down_is_Some node a x Hx) as [child Hchild]. rewrite Hchild.
    specialize (IH child state' (total + reward) terminal').
    destruct (select_loop env_step tau child state' (total + reward) depth terminal')
      as [[[[node' st'] tot'] depth'] term'].
    destruct IH as (Hroot & Hlen & Hstop).
    destruct (down_Some _ _ _ Hchild) as (Hr & Hl & _).
    split; [congruence|]. split; [lia | exact Hstop].
Qed.

Lemma run_Done (m : MCTS Env Rng) state m' :
  run env_step np_choice m state = Done tt m' ->
  same_setting m m' /\ count (root m') = (count (root m) + 1)%Z.
Proof.
  unfold run.
  pose proof (select_loop_invariant (temperature m) (max_depth m)
                {| focus := root m; trail := [] |} state 0 false) as Hinv.
  destruct (select_loop env_step (temperature m) {| focus := root m; trail := [] |}
              state 0 (max_depth m) false) as [[[[node st] total] depth] terminal].
  destruct Hinv as (Hroot & _ & _). unfold root_of in Hroot. simpl in Hroot.
  set (cond := _ && _).
  assert (Hexp : forall n,
    (if cond then expand (focus node) (prior_policy m st) else Done tt (focus node))
    = Done tt n -> count n = count (focus node)).
  { intros n Hn. destruct cond; [|congruence].
    destruct (prior_policy m st) as [actions probabilities].
    pose proof (for_each_expand_extends actions probabilities
                  (seq 0 (length actions)) (focus node)) as Hext.
    unfold expand in Hn. rewrite Hn in Hext. apply Hext. }
  destruct (if cond then expand (focus node) (prior_policy m st) else Done tt (focus node))
    as [[] n|e n]; [|discriminate].
  specialize (Hexp n eq_refl).
  assert (Hcount : forall r,
    count (update_branch {| focus := n; trail := trail node |} r) = (count (root m) + 1)%Z).
  { intros r. unfold update_branch. simpl. rewrite update_branch_from_count, <- Hroot.
    f_equal. apply root_from_count. exact Hexp. }
  destruct terminal.
  - intros [= <-]. split; [repeat split | apply Hcount].
  - destruct (evaluate env_step np_choice (rollout_policy m) (np_random m) st total depth)
      as [q g|e g]; [|discriminate].
    intros [= <-]. split; [repeat split | apply Hcount].
Qed.

Lemma plan_loop_Done n : forall (m : MCTS Env Rng) state m',
  plan_loop env_step snapshot np_choice m state n = Done tt m' ->
  same_setting m m' /\ count (root m') = (count (root m) + Z.of_nat n)%Z.
Proof.
  induction n as [|n IH]; intros m state m' H; simpl in H.
  - injection H as <-. split; [repeat split | lia].
  - destruct (run env_step np_choice m (snapshot state)) as [[] m1|e m1] eqn:Hrun;
      [|discriminate].
    apply run_Done in Hrun as (Hs1 & Hc1). apply IH in H as (Hs2 & Hc2).
    split; [|lia].
    destruct Hs1 as (? & ? & ? & ? & ?), Hs2 as (? & ? & ? & ? & ?).
    repeat split; congruence.
Qed.

(** Every iteration that returns adds exactly one visit to the root, and
    changes none of the parameters of the search: when [plan] returns, the
    visit count of the root has grown by the number of iterations. *)
Theorem plan_counts_iterations (m : MCTS Env Rng) (state : Env) :
  (forall m', run env_step np_choice m state = Done tt m' ->
     count (root m') = (count (root m) + 1)%Z /\ same_setting m m') /\
  (forall actions m', plan env_step snapshot np_choice m state = Done actions m' ->
     count (root m') = (count (root m) + Z.of_nat (iterations m))%Z /\ same_setting m m').
Proof.
  split.
  - intros m' H. apply run_Done in H as [Hs Hc]. auto.
  - intros actions m' H. unfold plan in H.
    destruct (plan_loop env_step snapshot np_choice m state (iterations m))
      as [[] m1|e m1] eqn:Hloop; [|discriminate].
    injection H as _ <-. apply plan_loop_Done in Hloop as [Hs Hc]. auto.
Qed.

(** The selection of [run] keeps to the depth budget: it ends at a node
    whose depth in the tree plus the depth left for the rollout is
    [max_depth], and it ends only when the depth is used up, or at a node
    without children, or on a terminal state. *)
Theorem select_loop_depth (m : MCTS Env Rng) (state : Env) :
  let '(node, _, _, depth, terminal) :=
    select_loop env_step (temperature m) {| focus := root m; trail := [] |}
                state 0 (max_depth m) false in
  root_of node = root m /\
  (length (trail node) + depth = max_depth m)%nat /\
  (depth = 0%nat \/ children (focus node) = [] \/ terminal = true).
Proof.
  pose proof (select_loop_invariant (temperature m) (max_depth m)
                {| focus := root m; trail := [] |} state 0 false) as H.
  destruct (select_loop env_step (temperature m) {| focus := root m; trail := [] |}
              state 0 (max_depth m) false) as [[[[node st] total] depth] terminal].
  exact H.
Qed.

End Search.

Lemma plan_counts_iterations_witness :
  exists actions m',
    plan (two_step 0%Z) id first_choice (mcts (two_agent 3)) tt = Done actions m' /\
    count (root m') = 3%Z.
Proof.
  destruct (plan (two_step 0%Z) id first_choice (mcts (two_agent 3)) tt)
    as [actions m'|e m'] eqn:H; [|vm_compute in H; discriminate].
  destruct (plan_counts_iterations (two_step 0%Z) id first_choice (mcts (two_agent 3)) tt)
    as [_ Hplan].
  destruct (Hplan actions m' H) as [Hc _].
  exists actions, m'. split; [reflexivity | exact Hc].
Defined.

Section SearchErrors.
Context {Env Rng : Type}.
Variable env_step : Env -> action -> Env * Q * bool.
Variable snapshot : Env -> Env.
Variable np_choice : Rng -> list action -> list Q -> option (action * Rng).

Lemma evaluate_Raised rollout limit : forall g state total e g',
  evaluate env_step np_choice rollout g state total limit = Raised e g' ->
  e = ValueError /\
  exists g0 st, np_choice g0 (fst (rollout st)) (snd (rollout st)) = None.
Proof.
  induction limit as [|limit IH]; intros g state total e g' H; simpl in H; [discriminate|].
  destruct (rollout state) as [actions probabilities] eqn:Hpol.
  destruct (np_choice g actions probabilities) as [[a g1]|] eqn:Hch.
  - destruct (env_step state a) as [[state' reward] terminal].
    destruct terminal; [discriminate | eapply IH; exact H].
  - injection H as <- <-. split; [reflexivity|]. exists g, state. rewrite Hpol. exact Hch.
Qed.

Lemma run_Raised (m : MCTS Env Rng) state e m' :
  run env_step np_choice m state = Raised e m' ->
  (e = IndexError /\
   exists st, (length (snd (prior_policy m st)) < length (fst (prior_policy m st)))%nat) \/
  (e = ValueError /\
   exists g st, np_choice g (fst (rollout_policy m st)) (snd (rollout_policy m st)) = None).
Proof.
  unfold run.
  destruct (select_loop env_step (temperature m) {| focus := root m; trail := [] |}
              state 0 (max_depth m) false) as [[[[node st] total] depth] terminal].
  set (cond := _ && _).
  destruct (if cond then expand (focus node) (prior_policy m st) else Done tt (focus node))
    as [[] n|e1 n] eqn:Hexp.
  - destruct terminal; [discriminate|].
    destruct (evaluate env_step np_choice (rollout_policy m) (np_random m) st total depth)
      as [q g|e2 g] eqn:Hev; [discriminate|].
    intros [= <- _]. right. eapply evaluate_Raised. exact Hev.
  - intros [= <- _]. left. destruct cond; [|discriminate].
    destruct (prior_policy m st) as [actions probabilities] eqn:Hpol.
    apply expand_raises_IndexError in Hexp as [-> Hlt].
    split; [reflexivity|]. exists st. rewrite Hpol. exact Hlt.
Qed.

Lemma plan_loop_Raised n : forall (m : MCTS Env Rng) state e m',
  plan_loop env_step snapshot np_choice m state n = Raised e m' ->
  (e = IndexError /\
   exists st, (length (snd (prior_policy m st)) < length (fst (prior_policy m st)))%nat) \/
  (e = ValueError /\
   exists g st, np_choice g (fst (rollout_policy m st)) (snd (rollout_policy m st)) = None).
Proof.
  induction n as [|n IH]; intros m state e m' Hloop; simpl in Hloop; [discriminate|].
  destruct (run env_step np_choice m (snapshot state)) as [[] m2|e2 m2] eqn:Hrun.
  - apply (run_Done env_step np_choice) in Hrun as [(Hp & Hr & _) _].
    specialize (IH m2 state e m' Hloop). rewrite Hp, Hr in IH. exact IH.
  - injection Hloop as <- _. eapply run_Raised. exact Hrun.
Qed.

(** [plan] raises only for a policy output that cannot be used: the
    [IndexError] of [expand] on an output of the prior policy with fewer
    probabilities than actions, or the [ValueError] of the random choice
    refusing an output of the rollout policy. *)
Theorem plan_raises_only (m : MCTS Env Rng) (state : Env) (e : exn) (m' : MCTS Env Rng) :
  plan env_step snapshot np_choice m state = Raised e m' ->
  (e = IndexError /\
   exists st, (length (snd (prior_policy m st)) < length (fst (prior_policy m st)))%nat) \/
  (e = ValueError /\
   exists g st, np_choice g (fst (rollout_policy m st)) (snd (rollout_policy m st)) = None).
Proof.
  unfold plan.
  destruct (plan_loop env_step snapshot np_choice m state (iterations m))
    as [[] m1|e1 m1] eqn:Hloop; [discriminate|].
  intros [= <- _]. eapply plan_loop_Raised. exact Hloop.
Qed.

(** When [MCTSAgent.plan] returns, the plan is not empty, [act] returns its
    first action, and this action, recorded as previous action, has a child
    at the root: the step of the next call moves the root to this child and
    keeps its subtree. *)
Theorem plan_records_explored_action (agent : MCTSAgent Env Rng) (state : Env)
    (actions : list action) (agent' : MCTSAgent Env Rng) :
  MCTSAgent_plan env_step snapshot np_choice agent state = Done actions agent' ->
  exists a rest child,
    actions = a :: rest /\
    previous_action agent' = Some a /\
    MCTSAgent_act env_step snapshot np_choice agent state = Done a agent' /\
    getitem (children (root (mcts agent'))) a = Some child /\
    root (step (mcts agent') (previous_action agent')) = child.
Proof.
  unfold MCTSAgent_act, MCTSAgent_plan, plan. simpl mcts. simpl env.
  destruct (plan_loop env_step snapshot np_choice
              (step (mcts agent) (previous_action agent)) (env agent)
              (iterations (step (mcts agent) (previous_action agent))))
    as [[] m1|e m1]; [|discriminate].
  destruct (get_plan m1) as [|a rest] eqn:Hplan; [discriminate|].
  intros [= <- <-]. unfold get_plan in Hplan. rewrite get_plan_from_unfold in Hplan.
  destruct (select_action (root m1) 0) as [a'|] eqn:Hsel; [|discriminate].
  injection Hplan as -> _.
  destruct (select_action_children _ _ _ Hsel) as [child Hchild].
  exists a, rest, child. split; [reflexivity|]. split; [reflexivity|].
  split; [reflexivity|]. split; [exact Hchild|].
  simpl. unfold step, step_by_subtree. rewrite Hchild. reflexivity.
Qed.

End SearchErrors.

Lemma plan_raises_only_witness :
  exists e m',
    plan (two_step 0%Z) id first_choice
         (new_MCTS (fun _ : unit => ([0%Z; 1%Z], [1])) two_policy 1 10 3 tt) tt
    = Raised e m' /\ e = IndexError.
Proof.
  destruct (plan (two_step 0%Z) id first_choice
              (new_MCTS (fun _ : unit => ([0%Z; 1%Z], [1])) two_policy 1 10 3 tt) tt)
    as [actions m'|e m'] eqn:Hplan; [vm_compute in Hplan; discriminate|].
  exists e, m'. split; [reflexivity|].
  destruct (plan_raises_only (two_step 0%Z) id first_choice _ _ _ _ Hplan)
    as [[He _]|[He (g & st & Hch)]]; [exact He|].
  destruct st. simpl in Hch. discriminate.
Defined.

Lemma plan_records_explored_action_witness :
  exists a agent',
    MCTSAgent_act (two_step 0%Z) id first_choice (two_agent 2) tt = Done a agent' /\
    previous_action agent' = Some a.
Proof.
  destruct (MCTSAgent_plan (two_step 0%Z) id first_choice (two_agent 2) tt)
    as [actions agent'|e agent'] eqn:Hplan; [|vm_compute in Hplan; discriminate].
  destruct (plan_records_explored_action (two_step 0%Z) id first_choice _ _ _ _ Hplan)
    as (a & rest & child & _ & Hprev & Hact & _).
  exists a, agent'. split; [exact Hact | exact Hprev].
Defined.

(** ** RobustMCTSAgent.plan and RobustMCTSAgent.act *)

Lemma max_from_keep {A B} (ltb : B -> B -> bool) (f : A -> B) (l : list A) best :
  (forall x, ltb (f best) (f x) = false) -> max_from ltb f best l = best.
Proof.
  intros H. induction l as [|x l IH]; simpl; [reflexivity|]. rewrite H. exact IH.
Qed.

Section RobustOrder.
Context {Env Rng : Type}.
Variable env_step : Env -> action -> Env * Q * bool.
Variable snapshot : Env -> Env.
Variable np_choice : Rng -> list action -> list Q -> option (action * Rng).
Variable ACTIONS_keys : Env -> list action.

(** The tie-break of the robust plan: among the candidate actions, taken in
    the order of [state.ACTIONS], the one returned is the first whose minimum
    across the sub-agents is maximal: every candidate before it has a
    strictly smaller minimum, and no candidate after it has a greater one;
    the plan holds this single action, which [act] returns. *)
Theorem robust_plan_first_maximal (self : RobustMCTSAgent Env Rng) (state : Env)
    (l : list (MCTSAgent Env Rng)) :
  plan_each env_step snapshot np_choice (agents self) state = Done tt l ->
  candidates ACTIONS_keys l state <> [] ->
  exists a va l1 l2,
    RobustMCTSAgent_plan env_step snapshot np_choice ACTIONS_keys self state
    = Done [a] (mkRobust (map (set_previous_action a) l)) /\
    RobustMCTSAgent_act env_step snapshot np_choice ACTIONS_keys self state
    = Done a (mkRobust (map (set_previous_action a) l)) /\
    candidates ACTIONS_keys l state = l1 ++ a :: l2 /\
    is_min_value l a va /\
    (forall k, k ∈ l1 -> exists vk, is_min_value l k vk /\ xltb vk va = true) /\
    (forall k, k ∈ l2 -> exists vk, is_min_value l k vk /\ xltb va vk = false) /\
    (forall k, k ∈ candidates ACTIONS_keys l state ->
       exists vk, is_min_value l k vk /\ xltb va vk = false).
Proof.
  intros Hplan Hne. unfold RobustMCTSAgent_act, RobustMCTSAgent_plan. rewrite Hplan.
  set (mav := min_values ACTIONS_keys l state).
  assert (Hkeys : keys mav = candidates ACTIONS_keys l state) by apply keys_min_values.
  destruct (py_max_first xltb (fun key => item Inf mav key) xltb_trans xgeb_trans
              (keys mav)) as (a & l1 & l2 & Hmax & Heq & H1 & H2).
  { rewrite Hkeys. exact Hne. }
  rewrite Hmax.
  destruct (keys_getitem mav a) as [va Hva].
  { rewrite Heq. apply elem_of_middle. }
  rewrite (item_getitem _ _ _ _ Hva) in H1, H2.
  assert (Hbefore : forall k, k ∈ l1 ->
            exists vk, is_min_value l k vk /\ xltb vk va = true).
  { intros k Hk. destruct (keys_getitem mav k) as [vk Hvk].
    { rewrite Heq. apply elem_of_app. left. exact Hk. }
    exists vk. split; [apply (min_values_is_min ACTIONS_keys l state); exact Hvk|].
    specialize (H1 k Hk). rewrite (item_getitem _ _ _ _ Hvk) in H1. exact H1. }
  assert (Hafter : forall k, k ∈ l2 ->
            exists vk, is_min_value l k vk /\ xltb va vk = false).
  { intros k Hk. destruct (keys_getitem mav k) as [vk Hvk].
    { rewrite Heq. apply elem_of_app. right. right. exact Hk. }
    exists vk. split; [apply (min_values_is_min ACTIONS_keys l state); exact Hvk|].
    specialize (H2 k Hk). rewrite (item_getitem _ _ _ _ Hvk) in H2. exact H2. }
  exists a, va, l1, l2. split; [reflexivity|]. split; [reflexivity|].
  split; [rewrite <- Hkeys; exact Heq|].
  split; [apply (min_values_is_min ACTIONS_keys l state); exact Hva|].
  split; [exact Hbefore|]. split; [exact Hafter|].
  intros k Hk. rewrite <- Hkeys, Heq in Hk. apply elem_of_app in Hk as [Hk|Hk].
  - destruct (Hbefore k Hk) as (vk & Hmin & Hlt). exists vk. split; [exact Hmin|].
    apply xltb_asym. exact Hlt.
  - apply elem_of_cons in Hk as [->|Hk]; [|apply Hafter; exact Hk].
    exists va. split; [apply (min_values_is_min ACTIONS_keys l state); exact Hva|].
    apply xltb_irrefl.
Qed.

(** Without sub-agent, every action of [state.ACTIONS] is a candidate of
    value [np.inf]: [plan] returns the first key of [state.ACTIONS], and raises
    [ValueError] when [state.ACTIONS] is empty. *)
Theorem robust_plan_no_agent (self : RobustMCTSAgent Env Rng) (state : Env) :
  agents self = [] ->
  RobustMCTSAgent_plan env_step snapshot np_choice ACTIONS_keys self state
  = match ACTIONS_keys state with
    | [] => Raised ValueError self
    | k :: _ => Done [k] self
    end.
Proof.
  destruct self as [l]. simpl. intros ->. unfold RobustMCTSAgent_plan. simpl.
  unfold min_values. simpl.
  destruct (ACTIONS_keys state) as [|k ks]; [reflexivity|].
  simpl. rewrite max_from_keep; [reflexivity|].
  intros x. unfold item. simpl. rewrite Z.eqb_refl. reflexivity.
Qed.

End RobustOrder.

Lemma robust_plan_first_maximal_witness :
  exists a self',
    RobustMCTSAgent_act (two_step 1%Z) id first_choice (fun _ => [0%Z; 1%Z])
      two_ensemble tt = Done a self'.
Proof.
  destruct (robust_plan_first_maximal (two_step 1%Z) id first_choice (fun _ => [0%Z; 1%Z])
              two_ensemble tt
              (state_of (plan_each (two_step 1%Z) id first_choice (agents two_ensemble) tt)))
    as (a & va & l1 & l2 & _ & Hact & _).
  - vm_compute. reflexivity.
  - vm_compute. discriminate.
  - exists a. eexists. exact Hact.
Defined.

Lemma robust_plan_no_agent_witness :
  RobustMCTSAgent_plan (two_step 1%Z) id first_choice (fun _ => [4%Z; 2%Z])
    (mkRobust []) tt = Done [4%Z] (mkRobust []).
Proof.
  apply (robust_plan_no_agent (two_step 1%Z) id first_choice (fun _ => [4%Z; 2%Z])
           (mkRobust []) tt).
  reflexivity.
Defined.

(** ** Bounds on the value of the root *)

Lemma root_from_count_value up : forall n1 n2,
  count n1 = count n2 -> value n1 = value n2 ->
  count (root_from n1 up) = count (root_from n2 up) /\
  value (root_from n1 up) = value (root_from n2 up).
Proof.
  induction up as [|c up IH]; intros n1 n2 Hc Hv; simpl; [auto|].
  apply IH; reflexivity.
Qed.

Lemma update_value_congr n1 n2 r :
  count n1 = count n2 -> value n1 = value n2 ->
  value (update n1 r) = value (update n2 r).
Proof. intros Hc Hv. unfold update. simpl. rewrite Hc, Hv. reflexivity. Qed.

Lemma update_branch_from_value up : forall self r,
  value (update_branch_from self up r) = value (update (root_from self up) r).
Proof.
  induction up as [|c up IH]; intros self r; simpl update_branch_from; [reflexivity|].
  rewrite IH. simpl root_from.
  apply update_value_congr; apply root_from_count_value; reflexivity.
Qed.

Lemma update_between lo hi self r :
  (0 <= count self)%Z ->
  lo <= value self -> value self <= hi -> lo <= r -> r <= hi ->
  lo <= value (update self r) /\ value (update self r) <= hi.
Proof.
  intros Hc Hlo Hhi Hrlo Hrhi. simpl. unfold K.
  set (w := 1 / inject_Z (count self + 1)).
  assert (Hpos : 0 < inject_Z (count self + 1)).
  { change 0 with (inject_Z 0). rewrite <- Zlt_Qlt. lia. }
  assert (Hw0 : 0 <= w) by (apply Qlt_le_weak, Qlt_shift_div_l; lra).
  assert (Hw1 : w <= 1).
  { apply Qle_shift_div_r; [exact Hpos|]. rewrite Qmult_1_l.
    change 1 with (inject_Z 1). rewrite <- Zle_Qle. lia. }
  assert (H1 : 0 <= (1 - w) * (value self - lo)) by (apply Qmult_le_0_compat; lra).
  assert (H2 : 0 <= w * (r - lo)) by (apply Qmult_le_0_compat; lra).
  assert (H3 : 0 <= (1 - w) * (hi - value self)) by (apply Qmult_le_0_compat; lra).
  assert (H4 : 0 <= w * (hi - r)) by (apply Qmult_le_0_compat; lra).
  assert (E1 : value self + w * (r - value self)
               == lo + ((1 - w) * (value self - lo) + w * (r - lo))) by ring.
  assert (E2 : value self + w * (r - value self)
               == hi - ((1 - w) * (hi - value self) + w * (hi - r))) by ring.
  split; [rewrite E1 | rewrite E2]; lra.
Qed.

Section Bounds.
Context {Env Rng : Type}.
Variable env_step : Env -> action -> Env * Q * bool.
Variable snapshot : Env -> Env.
Variable np_choice : Rng -> list action -> list Q -> option (action * Rng).
Variable rmax : Q.
Hypothesis Hrewards : rewards_within env_step rmax.

Lemma select_loop_total tau depth : forall node state total terminal,
  let '(_, _, total', depth', _) :=
    select_loop env_step tau node state total depth terminal in
  (depth' <= depth)%nat /\ total <= total' /\
  total' <= total + inject_Z (Z.of_nat (depth - depth')) * rmax.
Proof.
  induction depth as [|depth IH]; intros node state total terminal.
  - simpl select_loop. split; [lia|]. split; [apply Qle_refl|]. rewrite Nat.sub_diag.
    change (inject_Z (Z.of_nat 0)) with 0. lra.
  - assert (Hstay : (S depth <= S depth)%nat /\ total <= total /\
                    total <= total + inject_Z (Z.of_nat (S depth - S depth)) * rmax).
    { split; [lia|]. split; [apply Qle_refl|]. rewrite Nat.sub_diag.
      change (inject_Z (Z.of_nat 0)) with 0. lra. }
    simpl select_loop. destruct (children (focus node)) as [|kc d] eqn:Hch; [exact Hstay|].
    destruct terminal; [exact Hstay|].
    destruct (select_action (focus node) tau) as [a|] eqn:Ha; [|exact Hstay].
    pose proof (Hrewards state a) as [Hr0 Hr1].
    destruct (env_step state a) as [[state' reward] terminal']. simpl in Hr0, Hr1.
    destruct (select_action_children _ _ _ Ha) as [x Hx].
    destruct (down_is_Some node a x Hx) as [child ->].
    specialize (IH child state' (total + reward) terminal').
    destruct (select_loop env_step tau child state' (total + reward) depth terminal')
      as [[[[node' st'] tot'] depth'] term'].
    destruct IH as (Hd & Hlo & Hhi). split; [lia|]. split; [lra|].
    replace (S depth - depth')%nat with (S (depth - depth')) by lia.
    rewrite Nat2Z.inj_succ. unfold Z.succ. rewrite inject_Z_plus.
    change (inject_Z 1) with 1. lra.
Qed.

Lemma evaluate_total rollout limit : forall g state total q g',
  evaluate env_step np_choice rollout g state total limit = Done q g' ->
  total <= q /\ q <= total + inject_Z (Z.of_nat limit) * rmax.
Proof.
  induction limit as [|limit IH]; intros g state total q g' H; simpl in H.
  - injection H as <- _. split; [apply Qle_refl|]. change (inject_Z (Z.of_nat 0)) with 0. lra.
  - destruct (rollout state) as [actions probabilities].
    destruct (np_choice g actions probabilities) as [[a g1]|]; [|discriminate].
    pose proof (Hrewards state a) as [Hr0 Hr1].
    destruct (env_step state a) as [[state' reward] terminal]. simpl in Hr0, Hr1.
    assert (Hstep : inject_Z (Z.of_nat (S limit)) * rmax
                    == inject_Z (Z.of_nat limit) * rmax + rmax).
    { rewrite Nat2Z.inj_succ. unfold Z.succ. rewrite inject_Z_plus.
      change (inject_Z 1) with 1. ring. }
    assert (Hlim : 0 <= inject_Z (Z.of_nat limit) * rmax).
    { apply Qmult_le_0_compat; [|lra]. change 0 with (inject_Z 0). rewrite <- Zle_Qle. lia. }
    destruct terminal.
    + injection H as <- _. split; lra.
    + apply IH in H as [Hlo Hhi]. split; lra.
Qed.

Lemma run_root_value (m : MCTS Env Rng) state m' :
  (0 <= count (root m))%Z ->
  0 <= value (root m) ->
  value (root m) <= inject_Z (Z.of_nat (max_depth m)) * rmax ->
  run env_step np_choice m state = Done tt m' ->
  0 <= value (root m') /\
  value (root m') <= inject_Z (Z.of_nat (max_depth m)) * rmax.
Proof.
  intros Hc Hv0 Hv1. unfold run.
  pose proof (select_loop_invariant env_step (temperature m) (max_depth m)
                {| focus := root m; trail := [] |} state 0 false) as Hinv.
  pose proof (select_loop_total (temperature m) (max_depth m)
                {| focus := root m; trail := [] |} state 0 false) as Htot.
  destruct (select_loop env_step (temperature m) {| focus := root m; trail := [] |}
              state 0 (max_depth m) false) as [[[[node st] total] depth] terminal].
  destruct Hinv as (Hroot & _ & _). unfold root_of in Hroot. simpl in Hroot.
  destruct Htot as (Hd & Ht0 & Ht1).
  assert (Hrmax : 0 <= rmax) by (destruct (Hrewards state 0%Z); lra).
  assert (Hsum : inject_Z (Z.of_nat (max_depth m)) * rmax
                 == inject_Z (Z.of_nat (max_depth m - depth)) * rmax
                    + inject_Z (Z.of_nat depth) * rmax).
  { rewrite <- Qmult_plus_distr_l, <- inject_Z_plus, <- Nat2Z.inj_add.
    replace (max_depth m - depth + depth)%nat with (max_depth m) by lia. reflexivity. }
  assert (Hdep : 0 <= inject_Z (Z.of_nat depth) * rmax).
  { apply Qmult_le_0_compat; [|exact Hrmax].
    change 0 with (inject_Z 0). rewrite <- Zle_Qle. lia. }
  set (cond := _ && _).
  assert (Hexp : forall n,
    (if cond then expand (focus node) (prior_policy m st) else Done tt (focus node))
    = Done tt n -> count n = count (focus node) /\ value n = value (focus node)).
  { intros n Hn. destruct cond; [|injection Hn as <-; auto].
    destruct (prior_policy m st) as [acts probs].
    pose proof (for_each_expand_extends acts probs (seq 0 (length acts)) (focus node)) as Hext.
    unfold expand in Hn. rewrite Hn in Hext. destruct Hext as (_ & Hcn & Hvn & _). auto. }
  destruct (if cond then expand (focus node) (prior_policy m st) else Done tt (focus node))
    as [[] n|e n]; [|discriminate].
  destruct (Hexp n eq_refl) as [Hcn Hvn].
  assert (Hfold : forall q, 0 <= q -> q <= inject_Z (Z.of_nat (max_depth m)) * rmax ->
    0 <= value (update_branch {| focus := n; trail := trail node |} q) /\
    value (update_branch {| focus := n; trail := trail node |} q)
    <= inject_Z (Z.of_nat (max_depth m)) * rmax).
  { intros q Hq0 Hq1. unfold update_branch. simpl focus. simpl trail.
    rewrite update_branch_from_value.
    destruct (root_from_count_value (trail node) n (focus node) Hcn Hvn) as [Hrc Hrv].
    rewrite Hroot in Hrc, Hrv.
    rewrite (update_value_congr _ (root m) q Hrc Hrv).
    apply update_between; assumption. }
  destruct terminal.
  - intros [= <-]. simpl root. apply Hfold; lra.
  - destruct (evaluate env_step np_choice (rollout_policy m) (np_random m) st total depth)
      as [q g|e g] eqn:Hev; [|discriminate].
    apply evaluate_total in Hev as [Hq0 Hq1].
    intros [= <-]. simpl root. apply Hfold; lra.
Qed.

Lemma plan_loop_root_value n : forall (m : MCTS Env Rng) state m',
  (0 <= count (root m))%Z ->
  0 <= value (root m) ->
  value (root m) <= inject_Z (Z.of_nat (max_depth m)) * rmax ->
  plan_loop env_step snapshot np_choice m state n = Done tt m' ->
  (0 <= count (root m'))%Z /\
  0 <= value (root m') /\
  value (root m') <= inject_Z (Z.of_nat (max_depth m)) * rmax.
Proof.
  induction n as [|n IH]; intros m state m' Hc Hv0 Hv1 Hloop; simpl in Hloop.
  - injection Hloop as <-. auto.
  - destruct (run env_step np_choice m (snapshot state)) as [[] m2|e m2] eqn:Hrun;
      [|discriminate].
    destruct (run_Done env_step np_choice _ _ _ Hrun) as [(_ & _ & _ & _ & Hd) Hcount].
    destruct (run_root_value m (snapshot state) m2 Hc Hv0 Hv1 Hrun) as [H0 H1].
    rewrite <- Hd. apply (IH m2 state m'); [lia | exact H0 | rewrite Hd; exact H1 | exact Hloop].
Qed.

(** With rewards between 0 and [rmax], an iteration folds into the root a
    total reward of at most [max_depth] steps: a root value between 0 and
    [max_depth * rmax], with a visit count that is not negative, stays so
    through every iteration of [plan]. *)
Theorem plan_root_value_bounded (m : MCTS Env Rng) (state : Env)
    (actions : list action) (m' : MCTS Env Rng) :
  (0 <= count (root m))%Z ->
  0 <= value (root m) ->
  value (root m) <= inject_Z (Z.of_nat (max_depth m)) * rmax ->
  plan env_step snapshot np_choice m state = Done actions m' ->
  (0 <= count (root m'))%Z /\
  0 <= value (root m') /\
  value (root m') <= inject_Z (Z.of_nat (max_depth m)) * rmax.
Proof.
  intros Hc Hv0 Hv1 Hplan. unfold plan in Hplan.
  destruct (plan_loop env_step snapshot np_choice m state (iterations m))
    as [[] m1|e m1] eqn:Hloop; [|discriminate].
  injection Hplan as _ <-. eapply plan_loop_root_value; eauto.
Qed.

End Bounds.

Lemma plan_root_value_bounded_witness :
  exists actions m',
    plan (two_step 0%Z) id first_choice (mcts (two_agent 2)) tt = Done actions m' /\
    value (root m') <= inject_Z 3 * 1.
Proof.
  destruct (plan (two_step 0%Z) id first_choice (mcts (two_agent 2)) tt)
    as [actions m'|e m'] eqn:H; [|vm_compute in H; discriminate].
  exists actions, m'. split; [reflexivity|].
  destruct (plan_root_value_bounded (two_step 0%Z) id first_choice 1) with
    (m := mcts (two_agent 2)) (state := tt) (actions := actions) (m' := m')
    as (_ & _ & Hv).
  - intros s a. unfold two_step. simpl. destruct (Z.eqb a 0); split; discriminate.
  - simpl. lia.
  - simpl. discriminate.
  - simpl. discriminate.
  - exact H.
  - exact Hv.
Defined.

(** ** MCTS.evaluate *)

(** A rollout that returns adds to the reward so far the rewards of at most
    [limit] steps: with rewards between 0 and [rmax], its result is between
    the reward so far and this reward plus [limit * rmax]; with [limit = 0] it
    is the reward so far and no action is drawn. *)
Theorem evaluate_reward_bounds {Env Rng : Type}
    (env_step : Env -> action -> Env * Q * bool)
    (np_choice : Rng -> list action -> list Q -> option (action * Rng))
    (rmax : Q) (rollout : Env -> distribution) (g : Rng) (state : Env) (total : Q)
    (limit : nat) :
  rewards_within env_step rmax ->
  evaluate env_step np_choice rollout g state total 0 = Done total g /\
  forall q g', evaluate env_step np_choice rollout g state total limit = Done q g' ->
    total <= q /\ q <= total + inject_Z (Z.of_nat limit) * rmax.
Proof.
  intros Hrewards. split; [reflexivity|].
  intros q g' H. eapply evaluate_total; eauto.
Qed.

Lemma evaluate_reward_bounds_witness :
  exists q g',
    evaluate (two_step 0%Z) first_choice two_policy tt tt (1 # 2) 3 = Done q g' /\
    (1 # 2) <= q /\ q <= (1 # 2) + inject_Z 3 * 1.
Proof.
  destruct (evaluate (two_step 0%Z) first_choice two_policy tt tt (1 # 2) 3)
    as [q g'|e g'] eqn:H; [|vm_compute in H; discriminate].
  exists q, g'. split; [reflexivity|].
  destruct (evaluate_reward_bounds (two_step 0%Z) first_choice 1 two_policy tt tt (1 # 2) 3)
    as [_ Hb].
  - intros s a. unfold two_step. simpl. destruct (Z.eqb a 0); split; discriminate.
  - exact (Hb q g' H).
Defined.

(** ** MCTSAgent.reset and RobustMCTSAgent.reset *)

(** [reset] leaves the recorded previous action as it is, and yet the next
    [plan] starts from a new tree: its step finds no child for that action
    in the single node that [reset] leaves, and resets again. *)
Theorem reset_starts_new_tree {Env Rng : Type} (agent : MCTSAgent Env Rng) :
  previous_action (MCTSAgent_reset agent) = previous_action agent /\
  root (mcts (MCTSAgent_reset agent)) = root_Node /\
  root (step (mcts (MCTSAgent_reset agent)) (previous_action (MCTSAgent_reset agent)))
  = root_Node /\
  forall (self : RobustMCTSAgent Env Rng) agent',
    agent' ∈ agents (RobustMCTSAgent_reset self) -> root (mcts agent') = root_Node.
Proof.
  split; [reflexivity|]. split; [reflexivity|]. split.
  - unfold MCTSAgent_reset, step, step_by_subtree, step_by_reset. simpl.
    destruct (previous_action agent); reflexivity.
  - intros self agent' Hin. unfold RobustMCTSAgent_reset in Hin. simpl in Hin.
    apply list_elem_of_fmap in Hin as (agent0 & -> & _). reflexivity.
Qed.

Lemma select_action_has_child_witness :
  exists child, getitem (children sample_node) 0%Z = Some child.
Proof.
  destruct (select_action_has_child sample_node 10) as [H _].
  destruct (H 0%Z eq_refl) as [_ Hchild]. exact Hchild.
Defined.

Lemma step_continues_plan_witness :
  get_plan (step (set_root (mcts (two_agent 0)) deep_node) (Some 0%Z)) = [0%Z].
Proof.
  destruct (step_continues_plan (set_root (mcts (two_agent 0)) deep_node)) as [H _].
  apply H. reflexivity.
Defined.

Lemma step_by_prior_resets_witness :
  exists n',
    node_at (root (step_by_prior (set_root (mcts (two_agent 0)) deep_node) (Some 0%Z)))
            [0%nat] = Some n' /\
    count n' = 0%Z.
Proof.
  destruct (step_by_prior_resets (set_root (mcts (two_agent 0)) deep_node) (Some 0%Z))
    as [H _].
  destruct (H 0%Z _ eq_refl eq_refl) as [_ Hpos].
  destruct (Hpos [0%nat] _ eq_refl) as (n' & Hn & Hc & _).
  exists n'. split; [exact Hn | exact Hc].
Defined.

(** ** The policy output in expand and in the rollout (C9) *)

Lemma first_index_app l1 l2 x : forall from,
  first_index (l1 ++ l2) x from =
  match first_index l1 x from with
  | Some j => Some j
  | None => first_index l2 x (from + length l1)
  end.
Proof.
  induction l1 as [|y l1 IH]; intros from; simpl.
  - rewrite Nat.add_0_r. reflexivity.
  - destruct (Z.eqb y x); [reflexivity|]. rewrite IH.
    replace (S from + length l1)%nat with (from + S (length l1))%nat by lia. reflexivity.
Qed.

Lemma stores_priors_step actions probabilities self i a s s1 :
  (i < length actions)%nat -> actions !! i = Some a ->
  stores_priors (take i actions) probabilities self s ->
  expand_at actions probabilities s i = Done tt s1 ->
  stores_priors (take (S i) actions) probabilities self s1.
Proof.
  intros Hi Ha Hinv Hstep k. specialize (Hinv k).
  rewrite (take_S_r _ _ _ Ha), first_index_app. simpl.
  rewrite length_take_le by lia.
  unfold expand_at in Hstep. rewrite Ha in Hstep.
  assert (Hs1 : contains (children s) a = true /\ s1 = s \/
                exists p, contains (children s) a = false /\ probabilities !! i = Some p /\
                          children s1 = children s ++ [(a, new_Node p)]).
  { destruct (contains (children s) a) eqn:Hc; [left; split; congruence|].
    destruct (probabilities !! i) as [p|] eqn:Hp; [|discriminate].
    injection Hstep as <-. right. exists p. auto. }
  clear Hstep.
  destruct (getitem (children self) k) as [c|].
  - destruct Hs1 as [[_ ->]|(p & _ & _ & ->)]; [exact Hinv|].
    rewrite getitem_app, Hinv. reflexivity.
  - destruct (first_index (take i actions) k 0) as [j|].
    + destruct Hinv as (p & Hp & Hk). exists p. split; [exact Hp|].
      destruct Hs1 as [[_ ->]|(p' & _ & _ & ->)]; [exact Hk|].
      rewrite getitem_app, Hk. reflexivity.
    + destruct (Z.eqb_spec a k) as [->|Hne].
      * destruct Hs1 as [[Hc _]|(p & _ & Hp & ->)].
        -- exfalso. unfold contains in Hc. rewrite Hinv in Hc. discriminate.
        -- exists p. split; [exact Hp|]. rewrite getitem_app, Hinv. simpl.
           rewrite Z.eqb_refl. reflexivity.
      * destruct Hs1 as [[_ ->]|(p & _ & _ & ->)]; [exact Hinv|].
        rewrite getitem_app, Hinv. simpl.
        destruct (Z.eqb_spec a k); [contradiction | reflexivity].
Qed.

Lemma for_each_expand_stores actions probabilities self n : forall i s s',
  length actions = (i + n)%nat ->
  stores_priors (take i actions) probabilities self s ->
  for_each (expand_at actions probabilities) (seq i n) s = Done tt s' ->
  stores_priors actions probabilities self s'.
Proof.
  induction n as [|n IH]; intros i s s' Hlen Hinv Hrun; simpl in Hrun.
  - injection Hrun as <-. rewrite take_ge in Hinv by lia. exact Hinv.
  - destruct (expand_at actions probabilities s i) as [[] s1|e s1] eqn:Hstep; [|discriminate].
    destruct (lookup_lt_is_Some_2 actions i) as [a Ha]; [lia|].
    apply (IH (S i) s1 s'); [lia | | exact Hrun].
    eapply stores_priors_step; eauto. lia.
Qed.

(** When [expand] returns, the children are exactly what the output says,
    unchecked. *)
Lemma expand_stores self actions probabilities self' :
  expand self (actions, probabilities) = Done tt self' ->
  stores_priors actions probabilities self self'.
Proof.
  intros Hrun. unfold expand in Hrun.
  apply (for_each_expand_stores actions probabilities self (length actions) 0 self self');
    [reflexivity | | exact Hrun].
  intros a. simpl. destruct (getitem (children self) a); reflexivity.
Qed.

(** C9 (amended). The engine does not validate a policy output. [expand]
    returns on every output that has at least as many probabilities as
    actions, whatever their sign and sum; whenever it returns, the probabilities
    are stored as priors as they are: the existing children are kept, each
    action without child gets a new node whose prior is the probability at the
    first index of the action, and nothing else is created. When [expand]
    raises, it is the [IndexError] of reading a probability that is not there,
    on an output with fewer probabilities than actions. A rollout hands the
    output as it is to the choice of the random stream: it returns whenever
    this choice accepts the outputs, it raises when this choice refuses the
    output, and when it raises it is the [ValueError] of a choice that
    refused. *)
Theorem policy_output_unchecked (self : Node) (actions : list action) (probabilities : list Q) :
  ((length actions <= length probabilities)%nat ->
   exists self',
     expand self (actions, probabilities) = Done tt self' /\
     extends actions probabilities self self') /\
  (forall self', expand self (actions, probabilities) = Done tt self' ->
     extends actions probabilities self self' /\
     stores_priors actions probabilities self self') /\
  (forall e s, expand self (actions, probabilities) = Raised e s ->
     e = IndexError /\ (length probabilities < length actions)%nat /\
     extends actions probabilities self s) /\
  (forall (Env Rng : Type) (env_step : Env -> action -> Env * Q * bool)
          (np_choice : Rng -> list action -> list Q -> option (action * Rng))
          (rollout : Env -> distribution) g state total limit,
     (rollout state = (actions, probabilities) ->
      np_choice g actions probabilities = None ->
      evaluate env_step np_choice rollout g state total (S limit)
      = Raised ValueError g) /\
     (choice_defined np_choice rollout ->
      exists q g', evaluate env_step np_choice rollout g state total limit = Done q g') /\
     (forall e g',
        evaluate env_step np_choice rollout g state total limit = Raised e g' ->
        e = ValueError /\
        exists g0 st, np_choice g0 (fst (rollout st)) (snd (rollout st)) = None)).
Proof.
  split; [apply expand_returns|]. split; [|split].
  - intros self' Hrun. split; [|apply expand_stores; exact Hrun].
    pose proof (for_each_expand_extends actions probabilities
                  (seq 0 (length actions)) self) as Hext.
    unfold expand in Hrun. rewrite Hrun in Hext. exact Hext.
  - intros e s Hrun. destruct (expand_raises_IndexError _ _ _ _ _ Hrun) as [He Hlt].
    split; [exact He|]. split; [exact Hlt|].
    pose proof (for_each_expand_extends actions probabilities
                  (seq 0 (length actions)) self) as Hext.
    unfold expand in Hrun. rewrite Hrun in Hext. exact Hext.
  - intros Env Rng env_step np_choice rollout g state total limit. split; [|split].
    + intros Hpol Hnone. simpl. rewrite Hpol, Hnone. reflexivity.
    + intros Hch. apply evaluate_returns. exact Hch.
    + intros e g' Hrun. eapply evaluate_Raised. exact Hrun.
Qed.

Lemma policy_output_unchecked_witness :
  exists self',
    expand root_Node bad_output = Done tt self' /\
    extends [0%Z; 1%Z] [-1; 5] root_Node self' /\
    stores_priors [0%Z; 1%Z] [-1; 5] root_Node self'.
Proof.
  destruct (policy_output_unchecked root_Node [0%Z; 1%Z] [-1; 5]) as (H1 & H2 & _).
  destruct H1 as (self' & Hrun & Hext); [simpl; lia|].
  exists self'. split; [exact Hrun|]. split; [exact Hext|].
  apply (H2 self' Hrun).
Defined.

(** On the malformed output, the priors stored are the probabilities -1
    and 5. *)
Example expand_stores_bad_output :
  forall self', expand root_Node bad_output = Done tt self' ->
    getitem (children self') 0%Z = Some (new_Node (-1)) /\
    getitem (children self') 1%Z = Some (new_Node 5).
Proof.
  intros self' Hrun.
  pose proof (expand_stores root_Node [0%Z; 1%Z] [-1; 5] self' Hrun) as Hs.
  pose proof (Hs 0%Z) as H0. pose proof (Hs 1%Z) as H1. simpl in H0, H1.
  destruct H0 as (p0 & [= <-] & Hk0), H1 as (p1 & [= <-] & Hk1). auto.
Qed.
